(** * KindleWood: the windowed PDF reading engine

    A shallow embedding of the reader of [App.jsx], in the variant that
    keeps bookmarks and sticky notes in the remote tables (the [PDFReader]
    and [StickyNote] components and the bookmark state of [App]), and the
    properties of its render window, visibility resolver, bookmarks and
    sticky notes.

    Conventions of the embedding.
    - Page numbers, pixel counts of placeholders and timer instants are JS
      numbers holding integers far below 2^53, where double arithmetic is
      exact: they are [Z].
    - Intersection ratios, the zoom scale, page dimensions and note
      percentages are JS doubles.  They are embedded as exact rationals
      [Q]: comparisons of finite doubles agree with the comparison of the
      rationals they denote; products and quotients are taken exactly, so
      rounding of the last binary digit is not part of the model.  The one
      exception is the size of the placeholders, where that digit decides
      a pixel: there the product is the IEEE 754 binary64 product of the
      Numbers the rationals stand for ([SpecFloat] of the Standard
      Library).
    - React state ([useState]) and refs ([useRef]) of one component are the
      fields of one record; an event handler is a function from the record
      to the record, paired with the browser or store calls it makes.
    - The browser's side of the timers ([setTimeout], [clearTimeout], the
      firing of a timeout) is a small event loop with an explicit clock. *)

From Stdlib Require Import QArith Qminmax Qround Qabs Lqa SpecFloat.
From stdpp Require Import gmap strings list sorting.
From Equations Require Import Equations.

Local Open Scope Z_scope.

(** ** Decidable comparisons on [Q] *)

#[global] Instance Qlt_dec (x y : Q) : Decision (x < y)%Q :=
  Z.lt_dec (Qnum x * QDen y) (Qnum y * QDen x).
#[global] Instance Qle_dec (x y : Q) : Decision (x <= y)%Q :=
  Z.le_dec (Qnum x * QDen y) (Qnum y * QDen x).

(** ** Sticky notes: the data ([notes] state of [PDFReader]) *)

Record note := {
  id : Z;
  page : Z;
  xPct : Q;
  yPct : Q;
  content : string }.

(** The argument of [onUpdate] / [updateNote]: an object holding some of the
    keys [xPct], [yPct], [content] (the only ones the call sites pass). *)
Record changes := {
  ch_xPct : option Q;
  ch_yPct : option Q;
  ch_content : option string }.

(** [{ ...n, ...changes }] *)
Definition spread (n : note) (c : changes) : note :=
  {| id := id n;
     page := page n;
     xPct := default (xPct n) (ch_xPct c);
     yPct := default (yPct n) (ch_yPct c);
     content := default (content n) (ch_content c) |}.

(** The optimistic local update of [updateNote]:
    [setNotes(prev => prev.map(n => n.id === id ? { ...n, ...changes } : n))]. *)
Definition updateNote (id0 : Z) (c : changes) (prev : list note) : list note :=
  (λ n, if decide (id n = id0) then spread n c else n) <$> prev.

(** The row update [updateNote] sends to the [notes] table, if any column is set. *)
Record dbPayload := {
  x_pct : option Q;
  y_pct : option Q;
  db_content : option string }.

Definition updateNote_payload (c : changes) : option dbPayload :=
  match ch_xPct c, ch_yPct c, ch_content c with
  | None, None, None => None
  | x, y, t => Some {| x_pct := x; y_pct := y; db_content := t |}
  end.

(** [deleteNote]: [prev.filter(n => n.id !== id)]. *)
Definition deleteNote (id0 : Z) (prev : list note) : list note :=
  filter (λ n, id n ≠ id0) prev.

(** ** StickyNote: drag and save *)

(** What [handleMouseDown] captures for the drag session. *)
Record drag := {
  startMouseX : Q;
  startMouseY : Q;
  startXPct : Q;
  startYPct : Q }.

(** [handleMouseDown]: the drag session it begins, if any.  It returns early
    while the note is being edited, for any button but the left one, and
    when no page wrapper ([closest('[data-page]')]) encloses the note. *)
Definition handleMouseDown (editing : bool) (button : Z) (has_pageEl : bool)
    (n : note) (clientX clientY : Q) : option drag :=
  if editing || negb (button =? 0) then None
  else if negb has_pageEl then None
  else Some {| startMouseX := clientX; startMouseY := clientY;
               startXPct := xPct n; startYPct := yPct n |}.

(** A width and a height: [pageEl.getBoundingClientRect()], the viewport of
    a page, a rendered page size. *)
Record dims := { width : Q; height : Q }.

(** [onMouseMove]: the object passed to [onUpdate].  [rect] is the box of
    the page wrapper the note is drawn in, of positive width and height;
    for an empty box the quotients of the source are infinite or [NaN],
    which the rationals do not hold. *)
Definition onMouseMove (d : drag) (clientX clientY : Q) (rect : dims) : changes :=
  let dxPct := ((clientX - startMouseX d) / width rect * 100)%Q in
  let dyPct := ((clientY - startMouseY d) / height rect * 100)%Q in
  {| ch_xPct := Some (Qmax 0 (Qmin 95 (startXPct d + dxPct)));
     ch_yPct := Some (Qmax 0 (Qmin 95 (startYPct d + dyPct)));
     ch_content := None |}.

(** [handleSave]: [onUpdate({ content: draft })]. *)
Definition handleSave (draft : string) : changes :=
  {| ch_xPct := None; ch_yPct := None; ch_content := Some draft |}.

(** The inline style of the note: [left: `${note.xPct}%`, top: `${note.yPct}%`],
    [position: absolute] inside the page wrapper ([position: relative]). *)
Record position_style := { left_pct : Q; top_pct : Q }.

Definition stickyStyle (n : note) : position_style :=
  {| left_pct := xPct n; top_pct := yPct n |}.

(** CSS resolves a percentage [left] of an absolutely positioned box against
    the width of its containing block, and [top] against its height; the
    containing block is the page wrapper, whose size is the rendered page
    size. *)
Definition resolve_style (st : position_style) (rendered : dims) : Q * Q :=
  ((left_pct st / 100 * width rendered)%Q, (top_pct st / 100 * height rendered)%Q).

Definition notePixel (n : note) (rendered : dims) : Q * Q :=
  resolve_style (stickyStyle n) rendered.

(** The page size after the rendered dimensions are scaled by [k]. *)
Definition scale_dims (k : Q) (d : dims) : dims :=
  {| width := (k * width d)%Q; height := (k * height d)%Q |}.

(** ** PDFReader: state *)

(** How many pages above and below the current page stay rendered. *)
Definition PDF_RENDER_BUFFER : Z := 2.

(** The delay of the commit timer, [setTimeout(..., 100)], in milliseconds. *)
Definition COMMIT_DELAY : Z := 100.

(** The majority threshold of the commit, the literal [0.6]. *)
Definition MAJORITY : Q := 6 # 10.

(** The state and refs of [PDFReader] that the reading engine uses.
    [numPages] is [null] until the document has loaded.  [ioThrottleRef] is
    [null] or the handle [setTimeout] returned for the pending commit timer,
    an integer greater than zero (so a handle is always truthy).
    [ratioMapRef] is the persistent object
    [{ [pageNumber]: intersectionRatio }]; its keys are the [data-page]
    attributes, canonical decimal page numbers. *)
Record reader := {
  numPages : option Z;
  currentPage : Z;
  scale : Q;
  notes : list note;
  baseDims : dims;
  ioThrottleRef : option positive;
  ratioMapRef : gmap Z Q }.

(** The state at mount: [useState(null)], [useState(1)], the initial scale,
    [useState([])], the A4 fallback, [useRef(null)], [useRef({})]. *)
Definition mount (initialScale : Q) : reader :=
  {| numPages := None;
     currentPage := 1;
     scale := initialScale;
     notes := [];
     baseDims := {| width := 612; height := 792 |};
     ioThrottleRef := None;
     ratioMapRef := ∅ |}.

(** [onDocumentLoadSuccess]: [vp] is the first page's viewport at scale 1,
    or [None] when [getPage]/[getViewport] throws (the A4 default is kept). *)
Definition onDocumentLoadSuccess (pdf_numPages : Z) (vp : option dims) (s : reader) : reader :=
  {| numPages := Some pdf_numPages;
     currentPage := 1;
     scale := scale s;
     notes := notes s;
     baseDims := default (baseDims s) vp;
     ioThrottleRef := ioThrottleRef s;
     ratioMapRef := ratioMapRef s |}.

(** [(x).toFixed(1)] read back as a number: the nearest multiple of a tenth. *)
Definition toFixed1 (x : Q) : Q := (inject_Z (Qfloor (x * 10 + (1 # 2))) / 10)%Q.

Definition setScale (f : Q → Q) (s : reader) : reader :=
  {| numPages := numPages s;
     currentPage := currentPage s;
     scale := f (scale s);
     notes := notes s;
     baseDims := baseDims s;
     ioThrottleRef := ioThrottleRef s;
     ratioMapRef := ratioMapRef s |}.

(** The zoom buttons: [Math.max(0.5, +(s - 0.2).toFixed(1))] and
    [Math.min(3, +(s + 0.2).toFixed(1))]. *)
Definition zoomOut : reader → reader :=
  setScale (λ s, Qmax (1 # 2) (toFixed1 (s - (2 # 10)))).
Definition zoomIn : reader → reader :=
  setScale (λ s, Qmin 3 (toFixed1 (s + (2 # 10)))).

(** ** Render window *)

(** [for (let i = start; i <= end; i++) set.add(i)].  Only [set.has] is ever
    asked of the resulting [Set], so it is a finite set of page numbers. *)
Equations? add_pages (i end_ : Z) (set : gset Z) : gset Z
  by wf (Z.to_nat (end_ + 1 - i)) lt :=
add_pages i end_ set with decide (i ≤ end_) := {
  | left _ => add_pages (i + 1) end_ (set ∪ {[ i ]})
  | right _ => set }.
Proof. lia. Qed.

(** The body of the [renderedPages] memo below its guard, with the buffer
    radius as an argument. *)
Definition computeWindow (currentPage pageCount bufferRadius : Z) : gset Z :=
  let start := Z.max 1 (currentPage - bufferRadius) in
  let end_ := Z.min pageCount (currentPage + bufferRadius) in
  add_pages start end_ ∅.

(** [renderedPages]: [if (!numPages) return new Set()] holds for [null] and
    for [0]. *)
Definition renderedPages (numPages : option Z) (currentPage : Z) : gset Z :=
  match numPages with
  | None => ∅
  | Some n => if decide (n = 0) then ∅ else computeWindow currentPage n PDF_RENDER_BUFFER
  end.

(** ** Placeholders *)

(** [Math.round]: the nearest integer, halves rounded up. *)
Definition Math_round (x : Q) : Z := Qfloor (x + (1 # 2)).

(** A Number is an IEEE 754 binary64 value: precision 53, exponents below
    1024.  [baseDims.width], [baseDims.height] and [scale] are Numbers; the
    reader's record holds each as the rational it stands for (a scale as the
    decimal [k/10] that a literal and [+x.toFixed(1)] denote), and
    [Number_of_Q] is the Number itself: the binary64 value nearest to the
    rational, ties to even, the correctly rounded quotient of its numerator
    by its denominator. *)
Definition Number_of_Q (q : Q) : spec_float :=
  match Qnum q with
  | Z0 => S754_zero false
  | Zpos n => SFdiv 53 1024 (S754_finite false n 0) (S754_finite false (Qden q) 0)
  | Zneg n => SFdiv 53 1024 (S754_finite true n 0) (S754_finite false (Qden q) 0)
  end.

(** [x * y] on Numbers. *)
Definition Number_mul (x y : spec_float) : spec_float := SFmul 53 1024 x y.

(** The rational a finite Number is; the infinities and [NaN] are none. *)
Definition Number_value (x : spec_float) : option Q :=
  match x with
  | S754_zero _ => Some 0%Q
  | S754_finite negative m e =>
      Some (inject_Z (if negative then Zneg m else Zpos m) * Qpower 2 e)%Q
  | S754_infinity _ | S754_nan => None
  end.

(** [Math.round] of a Number: for a finite Number the nearest integer,
    halves rounded up; an infinity or [NaN] is returned as it is, and is
    no number of pixels. *)
Definition Math_round_Number (x : spec_float) : option Z :=
  Math_round <$> Number_value x.

(** [Math.round(baseDims.width * scale)], [Math.round(baseDims.height * scale)]. *)
Definition placeholderW (s : reader) : option Z :=
  Math_round_Number
    (Number_mul (Number_of_Q (width (baseDims s))) (Number_of_Q (scale s))).
Definition placeholderH (s : reader) : option Z :=
  Math_round_Number
    (Number_mul (Number_of_Q (height (baseDims s))) (Number_of_Q (scale s))).

(** One page slot of the scroll area: the inline [width] and [height]
    ([None] for [undefined], when the page is rendered and sizes the slot
    itself; else the number of pixels written before [px], if it is
    one), whether the [<Page>] is mounted, and the notes drawn in it. *)
Record slot := {
  slot_width : option (option Z);
  slot_height : option (option Z);
  page_mounted : bool;
  slot_notes : list note }.

Definition pageSlot (s : reader) (pageNum : Z) : slot :=
  let isRendered := bool_decide (pageNum ∈ renderedPages (numPages s) (currentPage s)) in
  {| slot_width := if isRendered then None else Some (placeholderW s);
     slot_height := if isRendered then None else Some (placeholderH s);
     page_mounted := isRendered;
     slot_notes := filter (λ n, page n = pageNum) (notes s) |}.

(** ** Visibility resolver *)

(** An [IntersectionObserverEntry]: [entry.target.dataset.page] and
    [entry.intersectionRatio]. *)
Record entry := { dataset_page : Z; intersectionRatio : Q }.

(** Step 1 of the observer callback: every entry is written into the map. *)
Definition merge_entries (entries : list entry) (m : gmap Z Q) : gmap Z Q :=
  foldl (λ m e, <[dataset_page e := intersectionRatio e]> m) m entries.

(** The order of two entries by their keys. *)
Definition key_le (a b : Z * Q) : Prop := a.1 ≤ b.1.
#[global] Instance key_le_dec (a b : Z * Q) : Decision (key_le a b) :=
  Z.le_dec a.1 b.1.

(** [Object.entries] of an object whose keys are integer indices, as the
    page numbers 1, 2, ... are: the entries in ascending order of the key. *)
Definition Object_entries (m : gmap Z Q) : list (Z * Q) :=
  merge_sort key_le (map_to_list m).

(** Step 3: [if (ratio > bestRatio) { bestRatio = ratio; bestPage = Number(page); }]
    on the pair [(bestPage, bestRatio)]. *)
Definition scan_step (best : option Z * Q) (e : Z * Q) : option Z * Q :=
  if decide (best.2 < e.2)%Q then (Some e.1, e.2) else best.

Definition scan (m : gmap Z Q) : option Z * Q :=
  foldl scan_step (None, 0%Q) (Object_entries m).

(** Step 4: the argument of [setCurrentPage], if it is called. *)
Definition commit (m : gmap Z Q) : option Z :=
  match scan m with
  | (Some bestPage, bestRatio) =>
      if decide (MAJORITY < bestRatio)%Q then Some bestPage else None
  | (None, _) => None
  end.

(** The observer callback.  [handle] is the handle [setTimeout] returns if
    it is called; the second component is the delay of that call, if the
    callback makes it. *)
Definition onIntersect (handle : positive) (entries : list entry) (s : reader)
    : reader * option Z :=
  let ratioMap := merge_entries entries (ratioMapRef s) in
  match ioThrottleRef s with
  | Some pending =>
      ({| numPages := numPages s;
          currentPage := currentPage s;
          scale := scale s;
          notes := notes s;
          baseDims := baseDims s;
          ioThrottleRef := Some pending;
          ratioMapRef := ratioMap |}, None)
  | None =>
      ({| numPages := numPages s;
          currentPage := currentPage s;
          scale := scale s;
          notes := notes s;
          baseDims := baseDims s;
          ioThrottleRef := Some handle;
          ratioMapRef := ratioMap |}, Some COMMIT_DELAY)
  end.

(** The timer callback. *)
Definition onTimeout (s : reader) : reader :=
  {| numPages := numPages s;
     currentPage := default (currentPage s) (commit (ratioMapRef s));
     scale := scale s;
     notes := notes s;
     baseDims := baseDims s;
     ioThrottleRef := None;
     ratioMapRef := ratioMapRef s |}.

(** The cleanup of the observer effect; the second component is the handle
    passed to [clearTimeout], if it is called. *)
Definition cleanup (s : reader) : reader * option positive :=
  ({| numPages := numPages s;
      currentPage := currentPage s;
      scale := scale s;
      notes := notes s;
      baseDims := baseDims s;
      ioThrottleRef := None;
      ratioMapRef := ratioMapRef s |}, ioThrottleRef s).

(** *** The event loop around the resolver

    The browser keeps the pending timeouts, each under its handle with the
    instant at which it is due.  It delivers observer batches, fires a
    pending timeout no earlier than its due instant (and forgets it), and
    runs the effect cleanup; [setTimeout] hands out a fresh handle and
    [clearTimeout] forgets a timeout.  Instants never decrease.  An event
    the browser cannot deliver in a state has no successor. *)
Inductive event :=
| Intersect (t : Z) (entries : list entry)
| TimerFires (t : Z) (handle : positive)
| Cleanup (t : Z).

Definition instant (e : event) : Z :=
  match e with Intersect t _ | TimerFires t _ | Cleanup t => t end.

Record world := {
  clock : Z;
  next_handle : positive;
  timers : gmap positive Z;
  rd : reader }.

Definition step (w : world) (e : event) : option world :=
  if decide (instant e < clock w) then None else
  match e with
  | Intersect t entries =>
      let '(s, request) := onIntersect (next_handle w) entries (rd w) in
      match request with
      | Some delay =>
          Some {| clock := t;
                  next_handle := Pos.succ (next_handle w);
                  timers := <[next_handle w := t + delay]> (timers w);
                  rd := s |}
      | None =>
          Some {| clock := t; next_handle := next_handle w; timers := timers w; rd := s |}
      end
  | TimerFires t handle =>
      match timers w !! handle with
      | Some due =>
          if decide (due ≤ t)
          then Some {| clock := t;
                       next_handle := next_handle w;
                       timers := delete handle (timers w);
                       rd := onTimeout (rd w) |}
          else None
      | None => None
      end
  | Cleanup t =>
      let '(s, cleared) := cleanup (rd w) in
      Some {| clock := t;
              next_handle := next_handle w;
              timers := match cleared with
                        | Some handle => delete handle (timers w)
                        | None => timers w
                        end;
              rd := s |}
  end.

Fixpoint run (w : world) (evs : list event) : option world :=
  match evs with
  | [] => Some w
  | e :: evs' => step w e ≫= λ w', run w' evs'
  end.

(** The ratio a batch reported last for page [p] ([acc] if it reports none),
    and the same over all the batches of a series of events. *)
Definition last_ratio (p : Z) (entries : list entry) (acc : option Q) : option Q :=
  foldl (λ acc x, if decide (dataset_page x = p)
                  then Some (intersectionRatio x) else acc) acc entries.

Definition last_report (p : Z) (evs : list event) (acc : option Q) : option Q :=
  foldl (λ acc e, match e with
                  | Intersect _ entries => last_ratio p entries acc
                  | _ => acc
                  end) acc evs.

Definition is_intersect (e : event) : bool :=
  match e with Intersect _ _ => true | _ => false end.

(** ** Bookmarks *)

(** [toggleBookmark]: the updater passed to [onUpdateBookmarks]. *)
Definition toggleBookmark (currentPage : Z) (prev : list Z) : list Z :=
  if bool_decide (currentPage ∈ prev)
  then filter (λ p, p ≠ currentPage) prev
  else merge_sort Z.le (prev ++ [currentPage]).

Definition removeBookmark (page : Z) (prev : list Z) : list Z :=
  filter (λ p, p ≠ page) prev.

(** The calls [updateBookmarks] makes on the [bookmarks] table: an insert of
    the row [(user, book_id, page_number)] for the signed-in user, or a
    delete of the rows with that [book_id] and [page_number]. *)
Inductive store_call (K : Type) :=
| InsertBookmark (book_id : K) (page_number : Z)
| DeleteBookmark (book_id : K) (page_number : Z).
Arguments InsertBookmark {K} _ _.
Arguments DeleteBookmark {K} _ _.

Section bookmarks.
Context `{Countable K}.

(** [updateBookmarks(bookId, updater)] as a function of the previous
    [bookmarks] state: the next state and the calls made, inserts first. *)
Definition updateBookmarks (bookId : K) (updater : list Z → list Z)
    (prev : gmap K (list Z)) : gmap K (list Z) * list (store_call K) :=
  let oldPages := default [] (prev !! bookId) in
  let newPages := updater oldPages in
  let added := filter (λ p, p ∉ oldPages) newPages in
  let removed := filter (λ p, p ∉ newPages) oldPages in
  (<[bookId := newPages]> prev,
   (InsertBookmark bookId <$> added) ++ (DeleteBookmark bookId <$> removed)).

(** A series of updates on one book, the calls concatenated. *)
Fixpoint updateBookmarks_all (bookId : K) (updaters : list (list Z → list Z))
    (prev : gmap K (list Z)) : gmap K (list Z) * list (store_call K) :=
  match updaters with
  | [] => (prev, [])
  | u :: us =>
      let '(next, calls) := updateBookmarks bookId u prev in
      let '(final, calls') := updateBookmarks_all bookId us next in
      (final, calls ++ calls')
  end.
End bookmarks.

(** ** Vocabulary of the statements and scenarios *)

(** Pages 4 and 5 of a loaded document trade the ratios 0.45 and 0.55 while
    the commit timer fires in between: no tick finds a ratio above 0.6. *)
Definition oscillation : list event :=
  [ Intersect 0 [ {| dataset_page := 4; intersectionRatio := 55 # 100 |};
                  {| dataset_page := 5; intersectionRatio := 45 # 100 |} ];
    Intersect 40 [ {| dataset_page := 4; intersectionRatio := 45 # 100 |};
                   {| dataset_page := 5; intersectionRatio := 55 # 100 |} ];
    TimerFires 100 1;
    Intersect 130 [ {| dataset_page := 4; intersectionRatio := 55 # 100 |};
                    {| dataset_page := 5; intersectionRatio := 45 # 100 |} ];
    TimerFires 230 2;
    Intersect 240 [ {| dataset_page := 4; intersectionRatio := 45 # 100 |};
                    {| dataset_page := 5; intersectionRatio := 55 # 100 |} ];
    TimerFires 340 3 ].

Definition reading_page_4 : world :=
  {| clock := 0; next_handle := 1; timers := ∅;
     rd := {| numPages := Some 10; currentPage := 4; scale := 12 # 10; notes := [];
              baseDims := {| width := 612; height := 792 |};
              ioThrottleRef := None; ratioMapRef := ∅ |} |}.

(** A 10-page document open on page 1.  Page 1 is reported at 0.7 and is
    committed; the reader is scrolled to page 6, reported at 0.9, which is
    committed although it was outside the render window {1, 2, 3}; page 6
    then drops to 0.5 and the next commit returns to page 1. *)
Definition far_scroll : list event :=
  [ Intersect 0 [ {| dataset_page := 1; intersectionRatio := 7 # 10 |};
                  {| dataset_page := 2; intersectionRatio := 3 # 10 |} ];
    TimerFires 100 1;
    Intersect 200 [ {| dataset_page := 6; intersectionRatio := 9 # 10 |} ];
    TimerFires 300 2 ].

Definition far_scroll_back : list event :=
  far_scroll ++ [ Intersect 400 [ {| dataset_page := 6; intersectionRatio := 5 # 10 |} ];
                  TimerFires 500 3 ].

Definition opened_10_pages : world :=
  {| clock := 0; next_handle := 1; timers := ∅;
     rd := onDocumentLoadSuccess 10 None (mount (12 # 10)) |}.

(** What a state shows of page [p]: the current page, whether [p] is in the
    render window, and the entry of [p] in the ratio map. *)
Definition observe_page (p : Z) (w : world) : Z * bool * option Q :=
  (currentPage (rd w),
   bool_decide (p ∈ renderedPages (numPages (rd w)) (currentPage (rd w))),
   ratioMapRef (rd w) !! p).

(** The throttle's invariant: the browser holds the timeout whose handle is
    in [ioThrottleRef], and no other. *)
Definition throttled (w : world) : Prop :=
  match ioThrottleRef (rd w) with
  | Some handle => ∃ due, timers w = {[ handle := due ]}
  | None => timers w = ∅
  end.

(** From instant [c0] on, every pending timeout is due no earlier than
    [c0 + COMMIT_DELAY]. *)
Definition armed_after (c0 : Z) (w : world) : Prop :=
  c0 ≤ clock w ∧ ∀ handle due, timers w !! handle = Some due → c0 + COMMIT_DELAY ≤ due.

(** A document of 645 by 912 pages at scale 0.7: opened at 1.2, zoomed out
    to the bound and in again by one step. *)
Definition zoomed_to_07 : reader :=
  zoomIn (zoomOut (zoomOut (zoomOut (zoomOut
    (onDocumentLoadSuccess 10 (Some {| width := 645; height := 912 |})
       (mount (12 # 10))))))).

Definition two_notes : list note :=
  [ {| id := 11; page := 3; xPct := 5; yPct := 5; content := "first" |};
    {| id := 12; page := 3; xPct := 40; yPct := 60; content := "second" |} ].

(** The specification's [clamp(v, lo, hi)]: [v] brought into [lo, hi]. *)
Definition clamp_spec (v lo hi : Q) : Q :=
  if decide (v < lo)%Q then lo else if decide (hi < v)%Q then hi else v.

(** The bookmark sequence after a series of toggles. *)
Definition toggle_all (pages : list Z) (prev : list Z) : list Z :=
  foldl (λ l p, toggleBookmark p l) prev pages.

(** * Further code of the reader and of the library *)

(** ** PDFReader: navigation, state setters *)

(** [setNotes(f)]. *)
Definition setNotes (f : list note → list note) (s : reader) : reader :=
  {| numPages := numPages s;
     currentPage := currentPage s;
     scale := scale s;
     notes := f (notes s);
     baseDims := baseDims s;
     ioThrottleRef := ioThrottleRef s;
     ratioMapRef := ratioMapRef s |}.

(** [numPages || 1]. *)
Definition numPages_or_1 (s : reader) : Z :=
  match numPages s with
  | None => 1
  | Some n => if decide (n = 0) then 1 else n
  end.

(** The page slots of the scroll area are drawn for [1 .. numPages] when
    [numPages] is truthy; each registers itself in [pageRefs] under its
    page number. *)
Definition has_slot (s : reader) (n : Z) : bool :=
  match numPages s with
  | None => false
  | Some pages => bool_decide (1 ≤ n ≤ pages)
  end.

(** [scrollToPage(n)]: [pageRefs.current[n]?.scrollIntoView(...)]; the page
    scrolled to, or nothing when no slot is registered under [n]. *)
Definition scrollToPage (s : reader) (n : Z) : option Z :=
  if has_slot s n then Some n else None.

(** The previous-page button: its [disabled] attribute and the page its
    click scrolls to, [Math.max(1, currentPage - 1)]. *)
Definition prevDisabled (s : reader) : bool := bool_decide (currentPage s ≤ 1).
Definition prevTarget (s : reader) : Z := Z.max 1 (currentPage s - 1).

(** The next-page button: [disabled={!numPages || currentPage >= numPages}]
    and [Math.min(numPages || 1, currentPage + 1)]. *)
Definition nextDisabled (s : reader) : bool :=
  match numPages s with
  | None => true
  | Some n => bool_decide (n = 0) || bool_decide (n ≤ currentPage s)
  end.
Definition nextTarget (s : reader) : Z := Z.min (numPages_or_1 s) (currentPage s + 1).

(** The zoom label, [Math.round(scale * 100)] percent. *)
Definition zoomPercent (s : reader) : Z := Math_round (scale s * 100).

(** ** Vocabulary for the resolver's runs *)

(** The entries of a batch name page slots of a document of [pages] pages. *)
Definition entries_in (pages : Z) (entries : list entry) : Prop :=
  Forall (λ x, 1 ≤ dataset_page x ≤ pages) entries.

Definition event_in (pages : Z) (e : event) : Prop :=
  match e with
  | Intersect _ entries => entries_in pages entries
  | _ => True
  end.

(** The reader shows a document of [pages] pages, is on one of them, and
    its ratio map holds entries of its pages only. *)
Definition on_a_page (pages : Z) (s : reader) : Prop :=
  numPages s = Some pages
  ∧ 1 ≤ currentPage s ≤ pages
  ∧ ∀ q, is_Some (ratioMapRef s !! q) → 1 ≤ q ≤ pages.

(** No pending timeout is due later than [COMMIT_DELAY] from now. *)
Definition punctual (w : world) : Prop :=
  ∀ handle due, timers w !! handle = Some due → due ≤ clock w + COMMIT_DELAY.

Definition is_cleanup (e : event) : bool :=
  match e with Cleanup _ => true | _ => false end.

(** A multiple of a tenth. *)
Definition tenth (x : Q) : Prop := ∃ k : Z, (x == inject_Z k / 10)%Q.

(** ** Sticky notes: the rows of the [notes] table *)

(** A row of the [notes] table, as [select] and [insert ... select] return
    it (the columns the reader uses). *)
Record note_row := {
  row_id : Z;
  row_page : Z;
  row_x_pct : Q;
  row_y_pct : Q;
  row_content : string }.

(** The mapping of a row into the reader's state, as the load effect and
    [addNote] write it: [{ id: r.id, page: r.page, xPct: r.x_pct,
    yPct: r.y_pct, content: r.content }]. *)
Definition note_of_row (r : note_row) : note :=
  {| id := row_id r;
     page := row_page r;
     xPct := row_x_pct r;
     yPct := row_y_pct r;
     content := row_content r |}.

(** The load effect: on an error the notes stay; otherwise they are replaced
    by the rows ([data || []]). *)
Definition loadNotes (error : bool) (data : option (list note_row)) (s : reader) : reader :=
  if error then s else setNotes (λ _, note_of_row <$> default [] data) s.



(** [addNote] after the table has answered: [None] is an error, [Some row]
    the inserted row. *)
Definition addNote (response : option note_row) (s : reader) : reader :=
  match response with
  | None => s
  | Some row => setNotes (λ prev, prev ++ [note_of_row row]) s
  end.


(** What [update(dbPayload).eq('id', id)] does to the row with that id: the
    columns the payload names are set. *)
Definition update_row (p : dbPayload) (r : note_row) : note_row :=
  {| row_id := row_id r;
     row_page := row_page r;
     row_x_pct := default (row_x_pct r) (x_pct p);
     row_y_pct := default (row_y_pct r) (y_pct p);
     row_content := default (row_content r) (db_content p) |}.

(** What the calls of [updateNote] and [deleteNote] do to the rows of the
    [notes] table: [update(dbPayload).eq('id', id)], sent only when the
    payload names a column, and [delete().eq('id', id)]. *)
Definition table_update (id0 : Z) (p : option dbPayload)
    (table : list note_row) : list note_row :=
  match p with
  | None => table
  | Some p => (λ r, if decide (row_id r = id0) then update_row p r else r)
              <$> table
  end.

Definition table_delete (id0 : Z) (table : list note_row) : list note_row :=
  filter (λ r, row_id r ≠ id0) table.

(** ** StickyNote: the component's state and handlers *)

(** [editing], [draft], the [didDrag] ref, and the drag sessions whose
    [mousemove]/[mouseup] listeners are attached to the window. *)
Record sticky := {
  editing : bool;
  draft : string;
  didDrag : bool;
  listeners : list drag }.

(** [useState(!note.content)], [useState(note.content)], [useRef(false)]. *)
Definition sticky_mount (n : note) : sticky :=
  {| editing := bool_decide (content n = "");
     draft := content n;
     didDrag := false;
     listeners := [] |}.

Inductive pointer :=
| MouseDown (button : Z) (has_pageEl : bool) (clientX clientY : Q)
| MouseMove (clientX clientY : Q) (rect : dims)
| MouseUp
| Click
| Input (text : string)
| Save.

(** One event on a note [n]: the next state and the [onUpdate] calls made.
    [MouseDown] runs [handleMouseDown], [MouseMove] and [MouseUp] run the
    window listeners of the attached sessions, [Click] runs [handleClick],
    [Input] the textarea's [onChange], [Save] runs [handleSave]. *)
Definition sticky_step (n : note) (st : sticky) (e : pointer) : sticky * list changes :=
  match e with
  | MouseDown button has_pageEl clientX clientY =>
      if editing st || negb (button =? 0) then (st, [])
      else
        ({| editing := editing st;
            draft := draft st;
            didDrag := false;
            listeners :=
              listeners st
              ++ match handleMouseDown (editing st) button has_pageEl n clientX clientY with
                 | Some d => [d]
                 | None => []
                 end |}, [])
  | MouseMove clientX clientY rect =>
      ({| editing := editing st;
          draft := draft st;
          didDrag := match listeners st with [] => didDrag st | _ => true end;
          listeners := listeners st |},
       (λ d, onMouseMove d clientX clientY rect) <$> listeners st)
  | MouseUp =>
      ({| editing := editing st; draft := draft st; didDrag := didDrag st;
          listeners := [] |}, [])
  | Click =>
      if didDrag st
      then ({| editing := editing st; draft := draft st; didDrag := false;
               listeners := listeners st |}, [])
      else ({| editing := true; draft := draft st; didDrag := didDrag st;
               listeners := listeners st |}, [])
  | Input text =>
      ({| editing := editing st; draft := text; didDrag := didDrag st;
          listeners := listeners st |}, [])
  | Save =>
      ({| editing := false; draft := draft st; didDrag := didDrag st;
          listeners := listeners st |}, [handleSave (draft st)])
  end.

(** A series of events on a note, with all the [onUpdate] calls in order.
    Each call reaches [updateNote], and the component is rendered again
    with the note so changed: the next event finds that note. *)
Fixpoint sticky_run (n : note) (st : sticky) (es : list pointer) : sticky * list changes :=
  match es with
  | [] => (st, [])
  | e :: es' =>
      let '(st1, calls) := sticky_step n st e in
      let '(st2, calls') := sticky_run (foldl spread n calls) st1 es' in
      (st2, calls ++ calls')
  end.

(** The notes after a series of [onUpdate] calls of the note [id0]. *)
Definition updateNote_all (id0 : Z) (calls : list changes) (prev : list note) : list note :=
  foldl (λ l c, updateNote id0 c l) prev calls.

(** A change that moves a note: both coordinates, no content. *)
Definition is_move (c : changes) : Prop :=
  is_Some (ch_xPct c) ∧ is_Some (ch_yPct c) ∧ ch_content c = None.

(** The events of one gesture on a collapsed note: the left button goes
    down over the note, the pointer moves through [moves], the button is
    released, and the click that the release produces is delivered. *)
Definition gesture (downX downY : Q) (moves : list (Q * Q * dims)) : list pointer :=
  MouseDown 0 true downX downY
  :: ((λ m, MouseMove m.1.1 m.1.2 m.2) <$> moves) ++ [MouseUp; Click].

(** ** Strings

    A JS string is the sequence of its UTF-16 code units.  A literal of the
    source in the ASCII range is written as a string literal and read
    through [units]; so is the content of a note. *)
Definition units (s : string) : list N := Ascii.N_of_ascii <$> String.list_ascii_of_string s.

(** The code units [String.prototype.trim] removes: the WhiteSpace and
    LineTerminator code points (all of them in the basic plane). *)
Definition is_white (c : N) : bool :=
  bool_decide (c ∈ [9; 10; 11; 12; 13; 32; 160; 5760; 8232; 8233; 8239; 8287;
                    12288; 65279]%N)
  || bool_decide (8192 ≤ c ≤ 8202)%N.

Fixpoint trimStart (s : list N) : list N :=
  match s with
  | [] => []
  | c :: s' => if is_white c then trimStart s' else s
  end.

Definition trimEnd (s : list N) : list N := reverse (trimStart (reverse s)).

Definition trim (s : list N) : list N := trimEnd (trimStart s).

(** [a || b] on strings: the empty string is falsy. *)
Definition or_else (a b : list N) : list N :=
  match a with [] => b | _ => a end.

(** [a || b] on values that are a string, [null] or [undefined]. *)
Definition or_else_null (a b : option (list N)) : option (list N) :=
  match a with Some (_ :: _) => a | _ => b end.

(** [\w] of a regular expression: [A-Za-z0-9_]. *)
Definition is_word (c : N) : bool :=
  bool_decide (48 ≤ c ≤ 57)%N || bool_decide (65 ≤ c ≤ 90)%N
  || bool_decide (c = 95)%N || bool_decide (97 ≤ c ≤ 122)%N.

Definition is_lower (c : N) : bool := bool_decide (97 ≤ c ≤ 122)%N.

(** [c.toUpperCase()] of a single code unit that [\w] matches. *)
Definition toUpperCase_word (c : N) : N := if is_lower c then (c - 32)%N else c.

(** [.replace(/\.pdf$/i, '')]: a final [.pdf], in any case of its letters,
    is removed. *)
Definition strip_pdf (s : list N) : list N :=
  match reverse s with
  | f :: d :: p :: dot :: rest =>
      if bool_decide (dot = 46)%N
         && bool_decide (p ∈ [112; 80]%N)
         && bool_decide (d ∈ [100; 68]%N)
         && bool_decide (f ∈ [102; 70]%N)
      then reverse rest
      else s
  | _ => s
  end.

(** [.replace(/[-_]/g, ' ')]. *)
Definition dashes_to_spaces (s : list N) : list N :=
  (λ c, if bool_decide (c ∈ [45; 95]%N) then 32%N else c) <$> s.

(** [.replace(/\b\w/g, (c) => c.toUpperCase())]: [\b\w] matches a word
    character that follows the start of the string or a character that is
    not a word character.  [after_word] tells whether the code unit before
    is a word character; [capital] is what comes in the place of [c]. *)
Definition capital (after_word : bool) (c : N) : N :=
  if is_word c && negb after_word then toUpperCase_word c else c.

Fixpoint capitalize (after_word : bool) (s : list N) : list N :=
  match s with
  | [] => []
  | c :: s' => capital after_word c :: capitalize (is_word c) s'
  end.

(** [titleFromFilename]. *)
Definition titleFromFilename (filename : list N) : list N :=
  or_else (trim (capitalize false (dashes_to_spaces (strip_pdf filename))))
          (units "Untitled Book").

(** [s.includes(t)]. *)
Fixpoint includes (s t : list N) : bool :=
  bool_decide (t `prefix_of` s)
  || match s with
     | [] => false
     | _ :: s' => includes s' t
     end.

(** [s.replace(pattern, replacement)] for a string pattern and a
    replacement without [$]: the first occurrence is replaced. *)
Fixpoint replace_first (pattern replacement s : list N) : list N :=
  if bool_decide (pattern `prefix_of` s)
  then replacement ++ drop (length pattern) s
  else match s with
       | [] => []
       | c :: s' => c :: replace_first pattern replacement s'
       end.

(** The preview of a collapsed note, [displayText], from [note.content]:
    [null] for a note of white space only, else the trimmed content, cut
    after 130 code units and followed by an ellipsis when it is longer. *)
Definition displayText (content : list N) : option (list N) :=
  let preview := trim content in
  match preview with
  | [] => None
  | _ => Some (if bool_decide (130 < length preview)%nat
               then take 130 preview ++ [8230%N]
               else preview)
  end.

(** ** The library: data *)

(** A book of the library's state. *)
Record book := {
  book_id : Z;
  book_title : list N;
  book_author : list N;
  book_cover : option (list N);
  book_pdfUrl : option (list N);
  book_favorite : bool }.

(** A row of the [books] table. *)
Record book_row := {
  brow_id : Z;
  brow_title : list N;
  brow_author : list N;
  brow_cover_url : option (list N);
  brow_pdf_path : option (list N);
  brow_favorite : bool }.

(** The row [handleBookConfirm] inserts (its [user_id] is the session's). *)
Record book_insert := {
  bins_title : list N;
  bins_author : list N;
  bins_cover_url : option (list N);
  bins_pdf_path : list N;
  bins_favorite : bool }.

(** The file picked in the file input. *)
Record file := { file_name : list N; file_type : list N }.

(** What [extractPdfMeta] resolves to. *)
Record pdfMeta := {
  metaTitle : list N;
  metaAuthor : list N;
  meta_cover : option (list N) }.

(** What [fetchBookInfo] returns when it does not return [null]. *)
Record bookInfo := {
  info_title : list N;
  info_author : list N;
  info_cover : option (list N) }.

(** The book awaiting confirmation, [pendingBook]. *)
Record pending := {
  pending_file : file;
  pending_cover : option (list N);
  pending_title : list N;
  pending_author : list N }.

Inductive tab := tab_all | tab_favorites.

(** The state of [KindleWoodLibrary] that its handlers use. *)
Record library := {
  activeTab : tab;
  books : list book;
  openBook : option book;
  isUploading : bool;
  pendingBook : option pending;
  bookToDelete : option book;
  searchQuery : list N }.

(** A [volumeInfo] of the Google Books answer: [title], [authors],
    [imageLinks?.thumbnail]. *)
Record volume := {
  vol_title : option (list N);
  vol_authors : option (list (list N));
  vol_thumbnail : option (list N) }.

(** [fetchBookInfo] after the answer has arrived.  [failed] stands for an
    exception of [fetch] or [res.json()]; [items] is [data.items], each
    item holding its [volumeInfo] or none (reading a field of a missing
    [volumeInfo] throws, and the function returns [null] from its [catch]). *)
Definition fetchBookInfo (failed ok : bool) (items : option (list (option volume)))
    : option bookInfo :=
  if failed || negb ok then None
  else match items with
       | Some (Some vol :: _) =>
           Some {| info_title := or_else (default [] (trim <$> vol_title vol)) [];
                   info_author :=
                     trim (default [] (vol_authors vol ≫= head));
                   info_cover :=
                     replace_first (units "http:") (units "https:")
                       <$> vol_thumbnail vol |}
       | _ => None
       end.

(** [DefaultCover]: the pair of colours of the gradient, picked by the first
    code unit of the title.  For the empty title [charCodeAt(0)] is [NaN],
    [colors[NaN]] is [undefined], and destructuring it throws: no cover. *)
Definition colors : list (string * string) :=
  [ ("#2d1b69", "#11998e"); ("#8e0e00", "#1f1c18"); ("#1a1a2e", "#16213e");
    ("#0f3460", "#533483"); ("#2c3e50", "#fd746c") ]%string.

Definition DefaultCover (title : list N) : option (string * string) :=
  match title with
  | [] => None
  | c :: _ => colors !! N.to_nat (c mod N.of_nat (length colors))
  end.

(** The endings that [/\.pdf$/i] matches. *)
Definition pdf_extensions : list (list N) :=
  units <$> [".pdf"; ".pdF"; ".pDf"; ".pDF"; ".Pdf"; ".PdF"; ".PDf"; ".PDF"]%string.

(** In a capitalized string no lower-case letter starts the string or
    follows a character that is not a word character. *)
Definition capitalized (t : list N) : Prop :=
  (∀ c, head t = Some c → is_lower c = false) ∧
  ∀ i a b, t !! i = Some a → t !! S i = Some b →
           is_word a = false → is_lower b = false.

(** ** The library: handlers *)

Definition setBooks (f : list book → list book) (s : library) : library :=
  {| activeTab := activeTab s; books := f (books s); openBook := openBook s;
     isUploading := isUploading s; pendingBook := pendingBook s;
     bookToDelete := bookToDelete s; searchQuery := searchQuery s |}.

Definition setOpenBook (f : option book → option book) (s : library) : library :=
  {| activeTab := activeTab s; books := books s; openBook := f (openBook s);
     isUploading := isUploading s; pendingBook := pendingBook s;
     bookToDelete := bookToDelete s; searchQuery := searchQuery s |}.

Definition setIsUploading (b : bool) (s : library) : library :=
  {| activeTab := activeTab s; books := books s; openBook := openBook s;
     isUploading := b; pendingBook := pendingBook s;
     bookToDelete := bookToDelete s; searchQuery := searchQuery s |}.

Definition setPendingBook (p : option pending) (s : library) : library :=
  {| activeTab := activeTab s; books := books s; openBook := openBook s;
     isUploading := isUploading s; pendingBook := p;
     bookToDelete := bookToDelete s; searchQuery := searchQuery s |}.

Definition setBookToDelete (b : option book) (s : library) : library :=
  {| activeTab := activeTab s; books := books s; openBook := openBook s;
     isUploading := isUploading s; pendingBook := pendingBook s;
     bookToDelete := b; searchQuery := searchQuery s |}.

(** The state [KindleWoodLibrary] mounts with. *)
Definition library_mount : library :=
  {| activeTab := tab_all; books := []; openBook := None;
     isUploading := false; pendingBook := None; bookToDelete := None;
     searchQuery := [] |}.

(** The calls the handlers make to the storage bucket and to the [books]
    table. *)
Inductive library_call :=
| UploadPdf (filePath : list N) (f : file)
| InsertBook (row : book_insert)
| UpdateFavorite (id : Z) (favorite : bool)
| RemovePdf (path : list N)
| DeleteBook (id : Z).


Section library.

(** Taken from the platform: [supabase.storage.from('PDFs').getPublicUrl],
    [String.prototype.toLowerCase], and the storage path
    [new URL(url).pathname.match(/\/PDFs\/(.+)$/)] finds in a public URL
    ([None] when [new URL] throws, [Some None] when nothing matches). *)
Variable getPublicUrl : list N → list N.
Variable toLowerCase : list N → list N.
Variable storagePath : list N → option (option (list N)).

(** The book the loading effect makes of a row. *)
Definition book_of_row (row : book_row) : book :=
  {| book_id := brow_id row;
     book_title := brow_title row;
     book_author := brow_author row;
     book_cover := or_else_null (brow_cover_url row) None;
     book_pdfUrl :=
       match brow_pdf_path row with
       | Some ((_ :: _) as pdf_path) => Some (getPublicUrl pdf_path)
       | _ => None
       end;
     book_favorite := brow_favorite row |}.

(** [handleFileChange], once [extractPdfMeta] and [fetchBookInfo] have
    answered with [meta] and [info]. *)
Definition handleFileChange (files : option (list file)) (meta : pdfMeta)
    (info : option bookInfo) (s : library) : library :=
  match files ≫= head with
  | Some f =>
      if bool_decide (file_type f = units "application/pdf") then
        let fileTitle := titleFromFilename (file_name f) in
        setIsUploading false
          (setPendingBook
             (Some {| pending_file := f;
                      pending_cover :=
                        or_else_null
                          (or_else_null (info ≫= info_cover) (meta_cover meta))
                          None;
                      pending_title :=
                        or_else
                          (or_else (default [] (info_title <$> info))
                                   (metaTitle meta))
                          fileTitle;
                      pending_author :=
                        or_else
                          (or_else (default [] (info_author <$> info))
                                   (metaAuthor meta))
                          [] |})
             (setIsUploading true s))
      else s
  | None => s
  end.

(** The row [handleBookConfirm] asks to insert. *)
Definition confirm_insert (title author filePath : list N) (p : pending)
    : book_insert :=
  {| bins_title := or_else (trim title) (units "Untitled Book");
     bins_author := or_else (trim author) (units "Unknown Author");
     bins_cover_url := or_else_null (pending_cover p) None;
     bins_pdf_path := filePath;
     bins_favorite := false |}.

(** [handleBookConfirm].  [userId] is [session.user.id], [now] the digits of
    [Date.now()]; [uploadError] and [inserted] are the answers of the
    upload and of the insert (an error message, or the row).  The result
    is the state, the calls made and the text of the alert, if any. *)
Definition handleBookConfirm (title author : list N) (userId now : list N)
    (uploadError : option (list N)) (inserted : list N + book_row)
    (s : library) : library * list library_call * option (list N) :=
  match pendingBook s with
  | None => (s, [], None)
  | Some p =>
      let filePath :=
        userId ++ units "/" ++ now ++ units "_" ++ file_name (pending_file p) in
      let finally s := setPendingBook None (setIsUploading false s) in
      let s := setIsUploading true s in
      match uploadError with
      | Some message =>
          (finally s, [UploadPdf filePath (pending_file p)],
           Some (units "Upload failed: " ++ message))
      | None =>
          let publicUrl := getPublicUrl filePath in
          let request := confirm_insert title author filePath p in
          match inserted with
          | inl message =>
              (finally s,
               [UploadPdf filePath (pending_file p); InsertBook request],
               Some (units "Upload failed: " ++ message))
          | inr row =>
              (finally
                 (setBooks
                    (λ prev, {| book_id := brow_id row;
                                book_title := brow_title row;
                                book_author := brow_author row;
                                book_cover := brow_cover_url row;
                                book_pdfUrl := Some publicUrl;
                                book_favorite := brow_favorite row |} :: prev)
                    s),
               [UploadPdf filePath (pending_file p); InsertBook request],
               None)
          end
      end
  end.

Definition handleBookCancel (s : library) : library := setPendingBook None s.

(** [{ ...b, favorite }] for the books with the given id. *)
Definition set_favorite (id : Z) (favorite : bool) (b : book) : book :=
  if bool_decide (book_id b = id)
  then {| book_id := book_id b; book_title := book_title b;
          book_author := book_author b; book_cover := book_cover b;
          book_pdfUrl := book_pdfUrl b; book_favorite := favorite |}
  else b.

(** [toggleFavorite]; [error] is the answer of the update. *)
Definition toggleFavorite (id : Z) (error : bool) (s : library)
    : library * list library_call :=
  match find (λ b, bool_decide (book_id b = id)) (books s) with
  | None => (s, [])
  | Some b =>
      let newFav := negb (book_favorite b) in
      let s := setBooks (fmap (set_favorite id newFav)) s in
      (if error then setBooks (fmap (set_favorite id (negb newFav))) s else s,
       [UpdateFavorite id newFav])
  end.

Definition handleDeleteRequest (b : book) (s : library) : library :=
  setBookToDelete (Some b) s.

Definition handleDeleteCancel (s : library) : library := setBookToDelete None s.

(** [handleDeleteConfirm].  When [new URL] throws the handler is left
    before any call and any update. *)
Definition handleDeleteConfirm (s : library) : library * list library_call :=
  match bookToDelete s with
  | None => (s, [])
  | Some b =>
      let removal :=
        match book_pdfUrl b with
        | Some ((_ :: _) as pdfUrl) =>
            match storagePath pdfUrl with
            | None => None
            | Some None => Some []
            | Some (Some path) => Some [RemovePdf path]
            end
        | _ => Some []
        end in
      match removal with
      | None => (s, [])
      | Some removal =>
          (setBookToDelete None
             (setOpenBook
                (λ cur, match cur with
                        | Some c => if bool_decide (book_id c = book_id b)
                                    then None else cur
                        | None => cur
                        end)
                (setBooks (filter (λ c, book_id c ≠ book_id b)) s)),
           removal ++ [DeleteBook (book_id b)])
      end
  end.

(** The click on a card of the grid: [book.pdfUrl && setOpenBook(book)]. *)
Definition clickBook (b : book) (s : library) : library :=
  match book_pdfUrl b with
  | Some (_ :: _) => setOpenBook (λ _, Some b) s
  | _ => s
  end.

Definition tabFiltered (s : library) : list book :=
  match activeTab s with
  | tab_favorites => filter (λ b, book_favorite b = true) (books s)
  | tab_all => books s
  end.

(** Whether the search shows the book. *)
Definition matches (query : list N) (b : book) : bool :=
  includes (toLowerCase (book_title b)) (toLowerCase query)
  || includes (toLowerCase (book_author b)) (toLowerCase query).

Definition displayedBooks (s : library) : list book :=
  match trim (searchQuery s) with
  | [] => tabFiltered s
  | _ => filter (λ b, matches (searchQuery s) b = true) (tabFiltered s)
  end.

(** What a card shows as its cover: the image, or the gradient of
    [DefaultCover] ([None] where that throws). *)
Definition card_cover (b : book) : option (list N + string * string) :=
  match book_cover b with
  | Some ((_ :: _) as cover) => Some (inl cover)
  | _ => inr <$> DefaultCover (book_title b)
  end.

End library.

(** The row the database answers with holds what was asked to insert. *)
Definition echoes_insert (row : book_row) (request : book_insert) : Prop :=
  brow_title row = bins_title request ∧
  brow_author row = bins_author request ∧
  brow_cover_url row = bins_cover_url request ∧
  brow_pdf_path row = Some (bins_pdf_path request) ∧
  brow_favorite row = bins_favorite request.

(** The book shown in the reader is a book of the library, by its id, and
    has a PDF. *)
Definition open_in_library (s : library) : Prop :=
  ∀ b, openBook s = Some b →
       book_id b ∈ (book_id <$> books s) ∧
       ∃ url, book_pdfUrl b = Some url ∧ url ≠ [].

(** ** Vocabulary of the library *)

Definition moby_volume : volume :=
  {| vol_title := Some (units " Moby Dick ");
     vol_authors := Some [units "Herman Melville"];
     vol_thumbnail := Some (units "http://books/1") |}.

Definition moby_info : bookInfo :=
  {| info_title := units "Moby Dick";
     info_author := units "Herman Melville";
     info_cover := Some (units "https://books/1") |}.

Definition moby_file : file :=
  {| file_name := units "moby-dick.pdf";
     file_type := units "application/pdf" |}.

Definition moby_pending : pending :=
  {| pending_file := moby_file;
     pending_cover := None;
     pending_title := units "Moby Dick";
     pending_author := units "Herman Melville" |}.

Definition awaiting_confirm : library :=
  setPendingBook (Some moby_pending) library_mount.

(** The public address of a stored path, for a project at [kw.example]; it
    is used below on a path of letters, digits, [/], [.], [_] and [-]. *)
Definition publicUrl_of (path : list N) : list N :=
  units "https://kw.example/storage/v1/object/public/PDFs/" ++ path.

Definition moby_row : book_row :=
  {| brow_id := 7;
     brow_title := units "Moby Dick";
     brow_author := units "Herman Melville";
     brow_cover_url := None;
     brow_pdf_path := Some (units "u1/1700000000000_moby-dick.pdf");
     brow_favorite := false |}.

Definition moby : book := book_of_row publicUrl_of moby_row.

Definition emma : book :=
  {| book_id := 8;
     book_title := units "Emma";
     book_author := units "Jane Austen";
     book_cover := None;
     book_pdfUrl := None;
     book_favorite := true |}.

Definition two_books : library := setBooks (λ _, [moby; emma]) library_mount.

(** * Properties *)

(** ** Render window *)

Lemma elem_of_add_pages (p i end_ : Z) (set : gset Z) :
  p ∈ add_pages i end_ set ↔ p ∈ set ∨ i ≤ p ≤ end_.
Proof.
  funelim (add_pages i end_ set).
  - match goal with IH : ∀ p, _ ↔ _ |- _ => rewrite IH end.
    rewrite elem_of_union, elem_of_singleton. intuition lia.
  - intuition lia.
Qed.

Lemma elem_of_computeWindow (p currentPage pageCount bufferRadius : Z) :
  p ∈ computeWindow currentPage pageCount bufferRadius
  ↔ Z.max 1 (currentPage - bufferRadius) ≤ p ≤ Z.min pageCount (currentPage + bufferRadius).
Proof.
  unfold computeWindow. rewrite elem_of_add_pages, elem_of_empty. intuition lia.
Qed.

(** The loop adds the pages [start], [start + 1], ..., [end]. *)
Lemma computeWindow_seqZ (currentPage pageCount bufferRadius : Z) :
  computeWindow currentPage pageCount bufferRadius
  = list_to_set (seqZ (Z.max 1 (currentPage - bufferRadius))
                      (Z.min pageCount (currentPage + bufferRadius) + 1
                       - Z.max 1 (currentPage - bufferRadius))).
Proof.
  apply set_eq. intros p.
  rewrite elem_of_computeWindow, elem_of_list_to_set, elem_of_seqZ. lia.
Qed.

Lemma size_computeWindow (currentPage pageCount bufferRadius : Z) :
  size (computeWindow currentPage pageCount bufferRadius)
  = Z.to_nat (Z.min pageCount (currentPage + bufferRadius) + 1
              - Z.max 1 (currentPage - bufferRadius)).
Proof.
  rewrite computeWindow_seqZ, size_list_to_set by apply NoDup_seqZ.
  apply length_seqZ.
Qed.

Lemma renderedPages_loaded (pageCount currentPage : Z) :
  pageCount ≠ 0 →
  renderedPages (Some pageCount) currentPage
  = computeWindow currentPage pageCount PDF_RENDER_BUFFER.
Proof. intros. unfold renderedPages. by case_decide. Qed.

(** C3, as stated, fails: on page 1 of a 10-page document with radius 2 the
    window is {1, 2, 3}, of size 3, and not of size min(2·2+1, 10) = 5. *)
Lemma computeWindow_size_counterexample :
  computeWindow 1 10 2 = {[ 1; 2; 3 ]}
  ∧ Z.of_nat (size (computeWindow 1 10 2)) = 3
  ∧ Z.min (2 * 2 + 1) 10 = 5
  ∧ Z.of_nat (size (computeWindow 1 10 2)) ≠ Z.min (2 * 2 + 1) 10.
Proof. by vm_compute. Qed.

(** C3, amended: for a current page of the document and a radius [≥ 0] the
    window is the contiguous range from [max(1, currentPage − R)] to
    [min(pageCount, currentPage + R)]; it contains the current page, lies in
    [1, pageCount], and has [min(pageCount, currentPage + R) −
    max(1, currentPage − R) + 1] pages.  That size is at most
    [min(2R+1, pageCount)], and equal to it exactly when the window is cut at
    neither end or at both. *)
Theorem computeWindow_clamped (currentPage pageCount bufferRadius : Z) :
  1 ≤ currentPage ≤ pageCount →
  0 ≤ bufferRadius →
  (∀ p, p ∈ computeWindow currentPage pageCount bufferRadius
        ↔ Z.max 1 (currentPage - bufferRadius) ≤ p
          ≤ Z.min pageCount (currentPage + bufferRadius))
  ∧ currentPage ∈ computeWindow currentPage pageCount bufferRadius
  ∧ (∀ p, p ∈ computeWindow currentPage pageCount bufferRadius → 1 ≤ p ≤ pageCount)
  ∧ Z.of_nat (size (computeWindow currentPage pageCount bufferRadius))
    = Z.min pageCount (currentPage + bufferRadius)
      - Z.max 1 (currentPage - bufferRadius) + 1
  ∧ Z.of_nat (size (computeWindow currentPage pageCount bufferRadius))
    ≤ Z.min (2 * bufferRadius + 1) pageCount
  ∧ (Z.of_nat (size (computeWindow currentPage pageCount bufferRadius))
     = Z.min (2 * bufferRadius + 1) pageCount
     ↔ (1 ≤ currentPage - bufferRadius ∧ currentPage + bufferRadius ≤ pageCount)
       ∨ (currentPage - bufferRadius ≤ 1 ∧ pageCount ≤ currentPage + bufferRadius)).
Proof.
  intros Hpage Hradius.
  split; [intros p; apply elem_of_computeWindow|].
  split; [apply elem_of_computeWindow; lia|].
  split; [intros p Hp; apply elem_of_computeWindow in Hp; lia|].
  rewrite size_computeWindow. lia.
Qed.

Lemma computeWindow_clamped_witness :
  7 ∈ computeWindow 7 10 2 ∧ Z.of_nat (size (computeWindow 7 10 2)) = 5.
Proof.
  destruct (computeWindow_clamped 7 10 2) as (_ & Hin & _ & Hsize & _); [lia | lia |].
  split; [exact Hin | exact Hsize].
Defined.

(** C4: for a current page of the document and a fixed radius [R] the
    rendered-page set is the contiguous range
    [max(1, currentPage − R) .. min(pageCount, currentPage + R)]; it
    contains the current page and has at most [2R+1] pages.  The reader's
    [renderedPages] is the instance [R = PDF_RENDER_BUFFER = 2]. *)
Theorem renderedPages_invariant (currentPage pageCount R : Z) :
  1 ≤ currentPage ≤ pageCount →
  0 ≤ R →
  (∀ p, p ∈ computeWindow currentPage pageCount R
        ↔ Z.max 1 (currentPage - R) ≤ p ≤ Z.min pageCount (currentPage + R))
  ∧ currentPage ∈ computeWindow currentPage pageCount R
  ∧ Z.of_nat (size (computeWindow currentPage pageCount R)) ≤ 2 * R + 1
  ∧ (∀ p, p ∈ renderedPages (Some pageCount) currentPage
          ↔ Z.max 1 (currentPage - 2) ≤ p ≤ Z.min pageCount (currentPage + 2))
  ∧ currentPage ∈ renderedPages (Some pageCount) currentPage
  ∧ Z.of_nat (size (renderedPages (Some pageCount) currentPage)) ≤ 2 * 2 + 1.
Proof.
  intros Hpage Hradius.
  rewrite renderedPages_loaded by lia. unfold PDF_RENDER_BUFFER.
  rewrite !size_computeWindow.
  split; [intros p; apply elem_of_computeWindow|].
  split; [apply elem_of_computeWindow; lia|].
  split; [lia|].
  split; [intros p; apply elem_of_computeWindow|].
  split; [apply elem_of_computeWindow; lia | lia].
Qed.

Lemma renderedPages_invariant_witness :
  7 ∈ renderedPages (Some 10) 7
  ∧ Z.of_nat (size (renderedPages (Some 10) 7)) ≤ 2 * 2 + 1.
Proof.
  destruct (renderedPages_invariant 7 10 2) as (_ & _ & _ & _ & Hin & Hsize); [lia | lia |].
  split; [exact Hin | exact Hsize].
Defined.

(** ** Visibility resolver: the scan and the commit *)

Lemma lookup_merge_entries (entries : list entry) (m : gmap Z Q) (p : Z) :
  merge_entries entries m !! p = last_ratio p entries (m !! p).
Proof.
  unfold merge_entries, last_ratio.
  revert m. induction entries as [|x entries IH]; intros m; simpl; [done|].
  rewrite IH, lookup_insert. by repeat case_decide.
Qed.

Lemma elem_of_Object_entries (m : gmap Z Q) (p : Z) (r : Q) :
  (p, r) ∈ Object_entries m ↔ m !! p = Some r.
Proof.
  unfold Object_entries.
  rewrite merge_sort_Permutation. apply elem_of_map_to_list.
Qed.

#[local] Instance key_le_total : Total key_le.
Proof. intros a b. unfold key_le. lia. Qed.
#[local] Instance key_le_trans : Transitive key_le.
Proof. intros a b c. unfold key_le. lia. Qed.

Lemma Object_entries_sorted (m : gmap Z Q) :
  StronglySorted key_le (Object_entries m).
Proof. apply StronglySorted_merge_sort; apply _. Qed.

(** The scan keeps the first entry that is strictly above everything before
    it and at least as high as everything after it. *)
Lemma scan_step_foldl (l : list (Z * Q)) (best : option Z * Q) :
  (foldl scan_step best l = best ∧ ∀ e, e ∈ l → (e.2 <= best.2)%Q)
  ∨ ∃ l1 e l2,
      l = l1 ++ e :: l2
      ∧ foldl scan_step best l = (Some e.1, e.2)
      ∧ (best.2 < e.2)%Q
      ∧ (∀ x, x ∈ l1 → (x.2 < e.2)%Q)
      ∧ (∀ x, x ∈ l2 → (x.2 <= e.2)%Q).
Proof.
  revert best. induction l as [|x l IH]; intros best; simpl.
  { left. split; [done|]. intros e He. by apply elem_of_nil in He. }
  destruct (decide (best.2 < x.2)%Q) as [Hx|Hx].
  - assert (scan_step best x = (Some x.1, x.2)) as ->
      by (unfold scan_step; by case_decide).
    destruct (IH (Some x.1, x.2)) as [[Heq Hle]|(l1 & e & l2 & -> & Heq & Hlt & H1 & H2)].
    + right. exists [], x, l. simpl. split_and!; try done.
      intros y Hy. by apply elem_of_nil in Hy.
    + right. exists (x :: l1), e, l2. simpl in *. split_and!; try done.
      * lra.
      * intros y Hy. apply elem_of_cons in Hy as [->|Hy]; [done|by apply H1].
  - assert (scan_step best x = best) as ->
      by (unfold scan_step; by case_decide).
    apply Qnot_lt_le in Hx.
    destruct (IH best) as [[Heq Hle]|(l1 & e & l2 & -> & Heq & Hlt & H1 & H2)].
    + left. split; [done|].
      intros y Hy. apply elem_of_cons in Hy as [->|Hy]; [done|by apply Hle].
    + right. exists (x :: l1), e, l2. simpl. split_and!; try done.
      intros y Hy. apply elem_of_cons in Hy as [->|Hy]; [lra|by apply H1].
Qed.

(** What the scan of the full map returns. *)
Lemma scan_None (m : gmap Z Q) (r : Q) :
  scan m = (None, r) → r = 0%Q ∧ ∀ q r', m !! q = Some r' → (r' <= 0)%Q.
Proof.
  unfold scan. intros Hscan.
  destruct (scan_step_foldl (Object_entries m) (None, 0%Q))
    as [[Heq Hle]|(l1 & e & l2 & _ & Heq & _)].
  - rewrite Hscan in Heq. split; [congruence|].
    intros q r' Hq. apply (Hle (q, r')). by apply elem_of_Object_entries.
  - congruence.
Qed.

Lemma scan_Some (m : gmap Z Q) (p : Z) (r : Q) :
  scan m = (Some p, r) →
  m !! p = Some r
  ∧ (0 < r)%Q
  ∧ (∀ q r', m !! q = Some r' → (r' <= r)%Q)
  ∧ (∀ q r', m !! q = Some r' → (r' == r)%Q → p ≤ q).
Proof.
  unfold scan. intros Hscan.
  destruct (scan_step_foldl (Object_entries m) (None, 0%Q))
    as [[Heq Hle]|(l1 & e & l2 & Hsplit & Heq & Hlt & H1 & H2)]; [congruence|].
  rewrite Hscan in Heq. destruct e as [p' r0]. simpl in *.
  injection Heq as <- <-.
  assert (Hin : ∀ q r', m !! q = Some r' → (q, r') ∈ l1 ∨ (q, r') = (p, r) ∨ (q, r') ∈ l2).
  { intros q r' Hq. apply elem_of_Object_entries in Hq. rewrite Hsplit in Hq.
    apply elem_of_app in Hq as [?|Hq]; [by left|].
    apply elem_of_cons in Hq as [?|?]; auto. }
  split; [apply elem_of_Object_entries; rewrite Hsplit; set_solver|].
  split; [done|]. split.
  - intros q r' Hq. destruct (Hin q r' Hq) as [Hq'|[Hq'|Hq']].
    + apply H1 in Hq'. simpl in Hq'. lra.
    + injection Hq' as -> ->. lra.
    + by apply H2 in Hq'.
  - intros q r' Hq Heqr. destruct (Hin q r' Hq) as [Hq'|[Hq'|Hq']].
    + apply H1 in Hq'. simpl in Hq'. lra.
    + injection Hq' as -> ->. lia.
    + pose proof (Object_entries_sorted m) as Hsorted. rewrite Hsplit in Hsorted.
      apply StronglySorted_app_1_r, StronglySorted_inv in Hsorted as [_ Hall].
      rewrite Forall_forall in Hall. exact (Hall _ Hq').
Qed.

(** The commit decision: [setCurrentPage] is called with the first page (in
    page order) holding the highest ratio of the whole map, when that ratio
    is above the threshold, and is not called otherwise. *)
Lemma commit_Some (m : gmap Z Q) (p : Z) :
  commit m = Some p
  ↔ ∃ r, m !! p = Some r
         ∧ (MAJORITY < r)%Q
         ∧ (∀ q r', m !! q = Some r' → (r' <= r)%Q)
         ∧ (∀ q r', m !! q = Some r' → (r' == r)%Q → p ≤ q).
Proof.
  unfold commit. destruct (scan m) as [[best|] r] eqn:Hscan.
  - apply scan_Some in Hscan as (Hbest & Hpos & Hmax & Hfirst).
    case_decide as Hr; split.
    + intros [= <-]. by exists r.
    + intros (r0 & Hp & Hr0 & Hmax0 & Hfirst0). f_equal.
      assert (r0 == r)%Q as Heq
        by (apply Qle_antisym; [by apply (Hmax p)|by apply (Hmax0 best)]).
      pose proof (Hfirst p r0 Hp Heq).
      pose proof (Hfirst0 best r Hbest (Qeq_sym _ _ Heq)). lia.
    + done.
    + intros (r0 & Hp & Hr0 & _). apply Hmax in Hp. lra.
  - apply scan_None in Hscan as [-> Hmax]. split; [done|].
    intros (r0 & Hp & Hr0 & _). apply Hmax in Hp. unfold MAJORITY in Hr0. lra.
Qed.

Lemma commit_None (m : gmap Z Q) :
  commit m = None ↔ ∀ q r, m !! q = Some r → (r <= MAJORITY)%Q.
Proof.
  split.
  - unfold commit. destruct (scan m) as [[best|] r0] eqn:Hscan.
    + apply scan_Some in Hscan as (_ & _ & Hmax & _).
      case_decide as Hr; [done|]. apply Qnot_lt_le in Hr.
      intros _ q r Hq. apply Hmax in Hq. lra.
    + apply scan_None in Hscan as [_ Hmax].
      intros _ q r Hq. apply Hmax in Hq. unfold MAJORITY. lra.
  - intros Hall. destruct (commit m) as [p|] eqn:Hcommit; [|done].
    apply commit_Some in Hcommit as (r & Hp & Hr & _). apply Hall in Hp. lra.
Qed.

(** ** The event loop *)

Lemma run_app (w : world) (evs1 evs2 : list event) :
  run w (evs1 ++ evs2) = run w evs1 ≫= λ w1, run w1 evs2.
Proof.
  revert w. induction evs1 as [|e evs1 IH]; intros w; simpl; [done|].
  destruct (step w e) as [w1|]; simpl; [apply IH|done].
Qed.

Lemma run_snoc (w w' : world) (evs : list event) (e : event) :
  run w (evs ++ [e]) = Some w' ↔ ∃ w1, run w evs = Some w1 ∧ step w1 e = Some w'.
Proof.
  rewrite run_app. destruct (run w evs) as [w1|]; simpl.
  - destruct (step w1 e) as [w2|] eqn:Hstep; simpl.
    + split; [intros [= <-]; by exists w1|].
      intros (w1' & [= <-] & Hs). congruence.
    + split; [done|]. intros (w1' & [= <-] & Hs). congruence.
  - split; [done|]. by intros (w1' & ? & _).
Qed.

Lemma run_app_Some (w w' : world) (evs1 evs2 : list event) :
  run w (evs1 ++ evs2) = Some w' →
  ∃ w1, run w evs1 = Some w1 ∧ run w1 evs2 = Some w'.
Proof.
  rewrite run_app. destruct (run w evs1) as [w1|]; [|done].
  simpl. intros Hrun. by exists w1.
Qed.

Lemma run_cons_Some (w w' : world) (e : event) (evs : list event) :
  run w (e :: evs) = Some w' →
  ∃ w1, step w e = Some w1 ∧ run w1 evs = Some w'.
Proof.
  simpl. destruct (step w e) as [w1|]; [|done].
  simpl. intros Hrun. by exists w1.
Qed.

(** The two outcomes of the observer callback. *)
Lemma onIntersect_pending (handle pending : positive) (entries : list entry) (s : reader) :
  ioThrottleRef s = Some pending →
  (onIntersect handle entries s).2 = None
  ∧ ioThrottleRef (onIntersect handle entries s).1 = Some pending.
Proof. intros Hpending. unfold onIntersect. by rewrite Hpending. Qed.

Lemma onIntersect_idle (handle : positive) (entries : list entry) (s : reader) :
  ioThrottleRef s = None →
  (onIntersect handle entries s).2 = Some COMMIT_DELAY
  ∧ ioThrottleRef (onIntersect handle entries s).1 = Some handle.
Proof. intros Hidle. unfold onIntersect. by rewrite Hidle. Qed.

Lemma onIntersect_state (handle : positive) (entries : list entry) (s : reader) :
  currentPage (onIntersect handle entries s).1 = currentPage s
  ∧ ratioMapRef (onIntersect handle entries s).1 = merge_entries entries (ratioMapRef s).
Proof. unfold onIntersect. by destruct (ioThrottleRef s). Qed.

(** What one event does to the browser and to the reader. *)
Lemma step_inv (w w' : world) (e : event) :
  step w e = Some w' →
  clock w ≤ instant e
  ∧ clock w' = instant e
  ∧ match e with
    | Intersect t entries =>
        rd w' = (onIntersect (next_handle w) entries (rd w)).1
        ∧ timers w'
          = match (onIntersect (next_handle w) entries (rd w)).2 with
            | Some delay => <[next_handle w := t + delay]> (timers w)
            | None => timers w
            end
    | TimerFires t handle =>
        (∃ due, timers w !! handle = Some due ∧ due ≤ t)
        ∧ rd w' = onTimeout (rd w)
        ∧ timers w' = delete handle (timers w)
    | Cleanup t =>
        rd w' = (cleanup (rd w)).1
        ∧ timers w'
          = match (cleanup (rd w)).2 with
            | Some handle => delete handle (timers w)
            | None => timers w
            end
    end.
Proof.
  unfold step. case_decide as Hclock; [done|].
  destruct e as [t entries|t handle|t]; simpl in *.
  - destruct (onIntersect (next_handle w) entries (rd w)) as [s [delay|]];
      intros [= <-]; simpl; split_and!; (lia || done).
  - destruct (timers w !! handle) as [due|]; [|done].
    case_decide; [|done]. intros [= <-]. simpl.
    split_and!; [lia|done|by exists due|done|done].
  - intros [= <-]. simpl. split_and!; (lia || done).
Qed.

Lemma run_clock (w w' : world) (evs : list event) :
  run w evs = Some w' → clock w ≤ clock w'.
Proof.
  revert w. induction evs as [|e evs IH]; intros w; simpl.
  - by intros [= ->].
  - destruct (step w e) as [w1|] eqn:Hstep; [|done]. simpl. intros Hrun.
    apply step_inv in Hstep as (? & ? & _). apply IH in Hrun. lia.
Qed.

Lemma step_currentPage (w w' : world) (e : event) :
  step w e = Some w' →
  currentPage (rd w')
  = match e with
    | TimerFires _ _ => default (currentPage (rd w)) (commit (ratioMapRef (rd w)))
    | _ => currentPage (rd w)
    end.
Proof.
  intros Hstep. apply step_inv in Hstep as (_ & _ & Hrd).
  destruct e as [t entries| |].
  - destruct Hrd as [-> _]. apply onIntersect_state.
  - by destruct Hrd as (_ & -> & _).
  - by destruct Hrd as [-> _].
Qed.

Lemma step_ratioMap (w w' : world) (e : event) (p : Z) :
  step w e = Some w' →
  ratioMapRef (rd w') !! p
  = match e with
    | Intersect _ entries => last_ratio p entries (ratioMapRef (rd w) !! p)
    | _ => ratioMapRef (rd w) !! p
    end.
Proof.
  intros Hstep. apply step_inv in Hstep as (_ & _ & Hrd).
  destruct e as [t entries| |].
  - destruct Hrd as [-> _].
    destruct (onIntersect_state (next_handle w) entries (rd w)) as [_ ->].
    apply lookup_merge_entries.
  - by destruct Hrd as (_ & -> & _).
  - by destruct Hrd as [-> _].
Qed.
Lemma run_ratioMap (w w' : world) (evs : list event) (p : Z) :
  run w evs = Some w' →
  ratioMapRef (rd w') !! p = last_report p evs (ratioMapRef (rd w) !! p).
Proof.
  revert w. induction evs as [|e evs IH]; intros w; simpl.
  - by intros [= ->].
  - destruct (step w e) as [w1|] eqn:Hstep; [|done]. simpl. intros Hrun.
    rewrite (IH _ Hrun), (step_ratioMap _ _ _ p Hstep). by destruct e.
Qed.

Lemma last_ratio_is_Some (p : Z) (entries : list entry) (acc : option Q) :
  is_Some acc → is_Some (last_ratio p entries acc).
Proof.
  unfold last_ratio. revert acc.
  induction entries as [|x entries IH]; intros acc Hacc; simpl; [done|].
  apply IH. by case_decide.
Qed.

Lemma last_report_is_Some (p : Z) (evs : list event) (acc : option Q) :
  is_Some acc → is_Some (last_report p evs acc).
Proof.
  unfold last_report. revert acc.
  induction evs as [|e evs IH]; intros acc Hacc; simpl; [done|].
  apply IH. destruct e; [by apply last_ratio_is_Some|done|done].
Qed.

(** A page whose stored ratio is above the threshold and strictly above
    every other stored ratio wins the commit. *)
Lemma commit_dominant (m : gmap Z Q) (p : Z) (r : Q) :
  m !! p = Some r →
  (MAJORITY < r)%Q →
  (∀ q r', q ≠ p → m !! q = Some r' → (r' < r)%Q) →
  commit m = Some p.
Proof.
  intros Hp Hr Hothers. apply commit_Some. exists r. split_and!; [done|done| |].
  - intros q r' Hq. destruct (decide (q = p)) as [->|Hne].
    + rewrite Hp in Hq. injection Hq as ->. lra.
    + apply Qlt_le_weak. by apply (Hothers q).
  - intros q r' Hq Heq. destruct (decide (q = p)) as [->|Hne]; [lia|].
    pose proof (Hothers q r' Hne Hq). lra.
Qed.

(** A run whose commit ticks all find every stored ratio at or below the
    threshold never changes the current page. *)
Lemma run_below_threshold (w w' : world) (evs : list event) :
  run w evs = Some w' →
  (∀ pre t handle post w1,
     evs = pre ++ TimerFires t handle :: post →
     run w pre = Some w1 →
     ∀ q r, ratioMapRef (rd w1) !! q = Some r → (r <= MAJORITY)%Q) →
  currentPage (rd w') = currentPage (rd w).
Proof.
  revert w. induction evs as [|e evs IH]; intros w; simpl.
  - by intros [= ->].
  - destruct (step w e) as [w1|] eqn:Hstep; [|done]. simpl. intros Hrun Hticks.
    rewrite (IH _ Hrun).
    + rewrite (step_currentPage _ _ _ Hstep). destruct e as [| t handle |]; [done| |done].
      assert (commit (ratioMapRef (rd w)) = None) as ->; [|done].
      apply commit_None. by apply (Hticks [] t handle evs w).
    + intros pre t handle post w2 -> Hpre.
      apply (Hticks (e :: pre) t handle post w2); [done|]. simpl. by rewrite Hstep.
Qed.

(** C1: when the deferred commit fires, the scan runs over the entire map
    and [setCurrentPage] is called if and only if some stored ratio is
    strictly above 0.6; the page it is called with holds the highest ratio
    of the map (on page keys: it is the first such page in page order).  It
    is not called if and only if no stored ratio is above 0.6, and then the
    current page keeps its value.  Hence over any series of batches, ticks
    and cleanups in which every stored ratio is at or below 0.6 at each
    commit tick, the current page never changes. *)
Theorem commit_rule (s : reader) :
  (∀ p, commit (ratioMapRef s) = Some p →
        ∃ r, ratioMapRef s !! p = Some r
             ∧ (MAJORITY < r)%Q
             ∧ ∀ q r', ratioMapRef s !! q = Some r' → (r' <= r)%Q)
  ∧ ((∃ p, commit (ratioMapRef s) = Some p)
     ↔ ∃ q r, ratioMapRef s !! q = Some r ∧ (MAJORITY < r)%Q)
  ∧ (commit (ratioMapRef s) = None
     ↔ ∀ q r, ratioMapRef s !! q = Some r → (r <= MAJORITY)%Q)
  ∧ ((∀ q, is_Some (ratioMapRef s !! q) → 1 ≤ q) →
     ∀ p, commit (ratioMapRef s) = Some p
          ↔ ∃ r, ratioMapRef s !! p = Some r
                 ∧ (MAJORITY < r)%Q
                 ∧ (∀ q r', ratioMapRef s !! q = Some r' → (r' <= r)%Q)
                 ∧ (∀ q r', ratioMapRef s !! q = Some r' → (r' == r)%Q → p ≤ q))
  ∧ (∀ p, commit (ratioMapRef s) = Some p → currentPage (onTimeout s) = p)
  ∧ (commit (ratioMapRef s) = None → currentPage (onTimeout s) = currentPage s)
  ∧ (∀ w evs w',
       rd w = s →
       run w evs = Some w' →
       (∀ pre t handle post w1,
          evs = pre ++ TimerFires t handle :: post →
          run w pre = Some w1 →
          ∀ q r, ratioMapRef (rd w1) !! q = Some r → (r <= MAJORITY)%Q) →
       currentPage (rd w') = currentPage s).
Proof.
  split_and!.
  - intros p (r & Hp & Hr & Hmax & _)%commit_Some. by exists r.
  - split.
    + intros [p (r & Hp & Hr & _)%commit_Some]. by exists p, r.
    + intros (q & r & Hq & Hr).
      destruct (commit (ratioMapRef s)) as [p|] eqn:Hcommit; [by exists p|].
      rewrite commit_None in Hcommit. apply Hcommit in Hq. lra.
  - apply commit_None.
  - intros _ p. apply commit_Some.
  - intros p Hp. simpl. by rewrite Hp.
  - intros Hnone. simpl. by rewrite Hnone.
  - intros w evs w' <-. apply run_below_threshold.
Qed.

(** Splits [pre ++ TimerFires t handle :: post = evs] for a literal [evs] into the
    positions of its ticks, with the state each tick finds. *)
Ltac at_each_tick Hsplit Hrun :=
  repeat match type of Hsplit with
    | ?pre ++ _ = _ :: _ =>
        let e := fresh "e" in
        let pre' := fresh "pre" in
        destruct pre as [|e pre']; simpl in Hsplit;
        [ try discriminate Hsplit;
          injection Hsplit as -> -> ->; vm_compute in Hrun; injection Hrun as <-
        | injection Hsplit as -> Hsplit ]
    | ?pre ++ _ = [] => destruct pre; discriminate Hsplit
    end.

Lemma commit_rule_witness :
  (currentPage ∘ rd) <$> run reading_page_4 oscillation = Some 4.
Proof.
  destruct (run reading_page_4 oscillation) as [w'|] eqn:Hrun; [|by vm_compute in Hrun].
  simpl. f_equal.
  destruct (commit_rule (rd reading_page_4)) as (_ & _ & _ & _ & _ & _ & Hruns).
  apply (Hruns reading_page_4 oscillation w' eq_refl Hrun).
  intros pre t handle post w1 Hsplit Hpre. unfold oscillation in Hsplit.
  symmetry in Hsplit.
  at_each_tick Hsplit Hpre;
    apply (bool_decide_unpack (map_Forall (λ _ r, (r <= MAJORITY)%Q) _)); by vm_compute.
Defined.

(** ** The ratio map and the render window *)

(** C2, as stated, fails.  After [far_scroll] the current page is 6 and the
    window is {4, ..., 8}: page 1 has left the render window, and its entry
    is still in the ratio map with its last ratio 0.7, so the keys of the
    map are not the mounted pages.  Page 6 won its commit while outside the
    window; and after [far_scroll_back] page 1, still outside the window,
    wins the commit with that last known ratio. *)
Lemma ratio_map_purge_counterexample :
  observe_page 6 <$> run opened_10_pages (take 3 far_scroll) = Some (1, false, Some (9 # 10))
  ∧ observe_page 1 <$> run opened_10_pages far_scroll = Some (6, false, Some (7 # 10))
  ∧ (λ w, bool_decide (dom (ratioMapRef (rd w))
                       = renderedPages (numPages (rd w)) (currentPage (rd w))))
      <$> run opened_10_pages far_scroll = Some false
  ∧ (currentPage ∘ rd) <$> run opened_10_pages far_scroll_back = Some 1.
Proof. by vm_compute. Qed.

(** C2, amended: the keys of the persistent ratio map are the pages the
    observer has reported, each with the ratio reported last; no event of
    the resolver removes an entry, and the render window plays no part: an
    entry stays when its page leaves the window, and a page whose stored
    ratio is above 0.6 and strictly above all others wins the next commit,
    mounted or not. *)
Theorem ratio_map_keeps_reports (w w' : world) (evs : list event) :
  run w evs = Some w' →
  dom (ratioMapRef (rd w)) ⊆ dom (ratioMapRef (rd w'))
  ∧ (∀ p, ratioMapRef (rd w') !! p = last_report p evs (ratioMapRef (rd w) !! p))
  ∧ (∀ p r,
       ratioMapRef (rd w') !! p = Some r →
       (MAJORITY < r)%Q →
       (∀ q r', q ≠ p → ratioMapRef (rd w') !! q = Some r' → (r' < r)%Q) →
       currentPage (onTimeout (rd w')) = p).
Proof.
  intros Hrun. split_and!.
  - intros p. rewrite !elem_of_dom, (run_ratioMap _ _ _ p Hrun).
    apply last_report_is_Some.
  - intros p. by apply run_ratioMap.
  - intros p r Hp Hr Hothers. simpl.
    by rewrite (commit_dominant _ p r Hp Hr Hothers).
Qed.

Lemma ratio_map_keeps_reports_witness :
  (λ w, ratioMapRef (rd w) !! 1) <$> run opened_10_pages far_scroll
  = Some (last_report 1 far_scroll None).
Proof.
  destruct (run opened_10_pages far_scroll) as [w'|] eqn:Hrun; [|by vm_compute in Hrun].
  simpl. f_equal.
  destruct (ratio_map_keeps_reports opened_10_pages w' far_scroll Hrun) as (_ & Hlast & _).
  apply Hlast.
Defined.

(** ** The commit throttle *)

(** The browser never holds a timeout that [ioThrottleRef] does not name. *)
Lemma throttled_step (w w' : world) (e : event) :
  throttled w → step w e = Some w' → throttled w'.
Proof.
  unfold throttled. intros Hw Hstep.
  apply step_inv in Hstep as (_ & _ & Hstep).
  destruct e as [t entries|t handle|t].
  - destruct Hstep as [-> ->].
    destruct (ioThrottleRef (rd w)) as [pending|] eqn:Hpending.
    + destruct (onIntersect_pending (next_handle w) pending entries _ Hpending) as [-> ->].
      done.
    + destruct (onIntersect_idle (next_handle w) entries _ Hpending) as [-> ->].
      exists (t + COMMIT_DELAY). by rewrite Hw, insert_empty.
  - destruct Hstep as ((due & Hdue & _) & -> & ->). simpl.
    destruct (ioThrottleRef (rd w)) as [pending|].
    + destruct Hw as [due' Hw]. rewrite Hw in Hdue |- *.
      apply lookup_singleton_Some in Hdue as [-> _]. apply delete_singleton_eq.
    + by rewrite Hw in Hdue.
  - destruct Hstep as [-> ->]. simpl.
    destruct (ioThrottleRef (rd w)) as [pending|].
    + destruct Hw as [due ->]. apply delete_singleton_eq.
    + done.
Qed.

Lemma throttled_run (w w' : world) (evs : list event) :
  throttled w → run w evs = Some w' → throttled w'.
Proof.
  revert w. induction evs as [|e evs IH]; intros w Hw; simpl.
  - by intros [= <-].
  - destruct (step w e) as [w1|] eqn:Hstep; [|done]. simpl.
    apply IH. by eapply throttled_step.
Qed.

Lemma throttled_size (w : world) : throttled w → (size (timers w) ≤ 1)%nat.
Proof.
  unfold throttled. destruct (ioThrottleRef (rd w)).
  - intros [due ->]. by rewrite map_size_singleton.
  - intros ->. rewrite map_size_empty. lia.
Qed.

Lemma armed_after_step (c0 : Z) (w w' : world) (e : event) :
  armed_after c0 w → step w e = Some w' →
  armed_after c0 w' ∧ ∀ t handle, e = TimerFires t handle → c0 + COMMIT_DELAY ≤ t.
Proof.
  intros [Hclock Hdue] Hstep. apply step_inv in Hstep as (Hle & Hclock' & Hstep).
  unfold armed_after. destruct e as [t entries|t handle|t]; simpl in *.
  - split; [|done]. split; [lia|]. destruct Hstep as [_ ->].
    destruct (ioThrottleRef (rd w)) as [pending|] eqn:Hpending.
    + by destruct (onIntersect_pending (next_handle w) pending entries _ Hpending) as [-> _].
    + destruct (onIntersect_idle (next_handle w) entries _ Hpending) as [-> _].
      intros handle due [[_ <-]|[_ Hold]]%lookup_insert_Some; [lia|by eapply Hdue].
  - destruct Hstep as ((due & Hpending & Hfire) & _ & ->).
    apply Hdue in Hpending. split; [|intros ? ? [= <- _]; lia].
    split; [lia|]. intros handle' due' [_ Hold]%lookup_delete_Some. by eapply Hdue.
  - split; [|done]. split; [lia|]. destruct Hstep as [_ ->]. simpl.
    destruct (ioThrottleRef (rd w)); [|done].
    intros handle due [_ Hold]%lookup_delete_Some. by eapply Hdue.
Qed.

Lemma armed_after_run (c0 : Z) (w w' : world) (evs : list event) :
  armed_after c0 w → run w evs = Some w' → armed_after c0 w'.
Proof.
  revert w. induction evs as [|e evs IH]; intros w Harmed; simpl.
  - by intros [= <-].
  - destruct (step w e) as [w1|] eqn:Hstep; [|done]. simpl.
    apply IH. by eapply armed_after_step.
Qed.

(** A pending timeout was set by a batch, and only batches came after it. *)
Lemma pending_since_batch (w w1 : world) (pre : list event) (handle : positive) (due : Z) :
  throttled w →
  timers w = ∅ →
  run w pre = Some w1 →
  timers w1 !! handle = Some due →
  ∃ pre1 t0 entries mid,
    pre = pre1 ++ Intersect t0 entries :: mid
    ∧ forallb is_intersect mid = true
    ∧ due = t0 + COMMIT_DELAY.
Proof.
  intros Hw Hidle. revert w1 handle due.
  induction pre as [|e pre IH] using rev_ind; intros w1 handle due Hrun Hpending.
  - simpl in Hrun. injection Hrun as <-. by rewrite Hidle in Hpending.
  - apply run_snoc in Hrun as (w2 & Hrun & Hstep).
    pose proof (throttled_run _ _ _ Hw Hrun) as Hw2. unfold throttled in Hw2.
    apply step_inv in Hstep as (_ & _ & Hstep).
    destruct e as [t entries|t fired|t].
    + destruct Hstep as [_ Htimers]. rewrite Htimers in Hpending.
      destruct (ioThrottleRef (rd w2)) as [pending|] eqn:Hpending2.
      * destruct (onIntersect_pending (next_handle w2) pending entries _ Hpending2)
          as [Hnone _].
        rewrite Hnone in Hpending.
        destruct (IH w2 handle due Hrun Hpending)
          as (pre1 & t0 & entries0 & mid & -> & Hmid & ->).
        exists pre1, t0, entries0, (mid ++ [Intersect t entries]).
        split_and!; [by rewrite <- app_assoc| |done].
        by rewrite forallb_app, Hmid.
      * destruct (onIntersect_idle (next_handle w2) entries _ Hpending2) as [Hsome _].
        rewrite Hsome, Hw2 in Hpending.
        apply lookup_insert_Some in Hpending as [[_ <-]|[_ Hold]]; [|done].
        by exists pre, t, entries, [].
    + destruct Hstep as ((due' & Hfired & _) & _ & Htimers).
      rewrite Htimers in Hpending.
      destruct (ioThrottleRef (rd w2)) as [pending|].
      * destruct Hw2 as [due2 Hw2]. rewrite Hw2 in Hfired, Hpending.
        apply lookup_singleton_Some in Hfired as [-> _].
        by rewrite delete_singleton_eq in Hpending.
      * by rewrite Hw2 in Hfired.
    + destruct Hstep as [_ Htimers]. rewrite Htimers in Hpending. simpl in Hpending.
      destruct (ioThrottleRef (rd w2)) as [pending|].
      * destruct Hw2 as [due2 Hw2].
        by rewrite Hw2, delete_singleton_eq in Hpending.
      * by rewrite Hw2 in Hpending.
Qed.

(** C5: a batch that arrives while a commit is pending calls no
    [setTimeout] and leaves the pending handle in place, so the browser
    never holds more than one commit timeout; the current page changes at
    timer ticks only.  In every run of the event loop two ticks are at least
    100ms apart, so no interval shorter than 100ms holds two decisions; and
    every tick closes a window opened by a batch: from a state with no
    pending commit, a tick is preceded by a batch that arrived at least
    100ms before it, with nothing but batches in between. *)
Theorem commit_throttle (w : world) :
  throttled w →
  (∀ handle pending entries,
     ioThrottleRef (rd w) = Some pending →
     (onIntersect handle entries (rd w)).2 = None
     ∧ ioThrottleRef (onIntersect handle entries (rd w)).1 = Some pending)
  ∧ (∀ evs w', run w evs = Some w' → throttled w' ∧ (size (timers w') ≤ 1)%nat)
  ∧ (∀ e w',
       step w e = Some w' →
       (∀ t handle, e ≠ TimerFires t handle) →
       currentPage (rd w') = currentPage (rd w))
  ∧ (∀ pre t1 handle1 mid t2 handle2 post w',
       run w (pre ++ TimerFires t1 handle1 :: mid ++ TimerFires t2 handle2 :: post)
       = Some w' →
       t1 + COMMIT_DELAY ≤ t2)
  ∧ (∀ pre t handle post w',
       timers w = ∅ →
       run w (pre ++ TimerFires t handle :: post) = Some w' →
       ∃ pre1 t0 entries mid,
         pre = pre1 ++ Intersect t0 entries :: mid
         ∧ forallb is_intersect mid = true
         ∧ t0 + COMMIT_DELAY ≤ t).
Proof.
  intros Hw. split_and!.
  - intros handle pending entries. apply onIntersect_pending.
  - intros evs w' Hrun. pose proof (throttled_run _ _ _ Hw Hrun) as Hw'.
    split; [done|by apply throttled_size].
  - intros e w' Hstep Hne. rewrite (step_currentPage _ _ _ Hstep).
    destruct e as [| t handle |]; [done| |done]. by destruct (Hne t handle).
  - intros pre t1 handle1 mid t2 handle2 post w' Hrun.
    apply run_app_Some in Hrun as (w1 & Hpre & Hrun).
    apply run_cons_Some in Hrun as (w2 & Hfire1 & Hrun).
    apply run_app_Some in Hrun as (w3 & Hmid & Hrun).
    apply run_cons_Some in Hrun as (w4 & Hfire2 & _).
    pose proof (throttled_step _ _ _ (throttled_run _ _ _ Hw Hpre) Hfire1) as Hw2.
    apply step_inv in Hfire1 as (_ & Hclock & _ & Hrd & _).
    assert (armed_after t1 w2) as Harmed.
    { split; [simpl in Hclock; lia|].
      unfold throttled in Hw2. rewrite Hrd in Hw2. simpl in Hw2.
      intros handle due. by rewrite Hw2. }
    apply (armed_after_run _ _ _ _ Harmed) in Hmid.
    by eapply (armed_after_step _ _ _ _ Hmid Hfire2).
  - intros pre t handle post w' Hidle Hrun.
    apply run_app_Some in Hrun as (w1 & Hpre & Hrun).
    apply run_cons_Some in Hrun as (w2 & Hfire & _).
    apply step_inv in Hfire as (_ & _ & (due & Hpending & Hdue) & _).
    destruct (pending_since_batch _ _ _ _ _ Hw Hidle Hpre Hpending)
      as (pre1 & t0 & entries & mid & -> & Hmid & ->).
    exists pre1, t0, entries, mid. split_and!; [done|done|lia].
Qed.

Lemma commit_throttle_witness :
  100 + COMMIT_DELAY ≤ 230
  ∧ ∃ pre1 t0 entries mid,
      take 2 oscillation = pre1 ++ Intersect t0 entries :: mid
      ∧ forallb is_intersect mid = true
      ∧ t0 + COMMIT_DELAY ≤ 100.
Proof.
  destruct (commit_throttle reading_page_4 eq_refl) as (_ & _ & _ & Hapart & Hwindow).
  destruct (run reading_page_4 oscillation) as [w'|] eqn:Hrun; [|by vm_compute in Hrun].
  split.
  - apply (Hapart (take 2 oscillation) 100 1%positive
             (take 1 (drop 3 oscillation)) 230 2%positive (drop 5 oscillation) w' Hrun).
  - apply (Hwindow (take 2 oscillation) 100 1%positive (drop 3 oscillation) w'
             eq_refl Hrun).
Defined.

(** ** Sticky notes *)

Lemma updateNote_lookup (id0 : Z) (c : changes) (prev : list note) (i : nat) :
  updateNote id0 c prev !! i
  = (λ n, if decide (id n = id0) then spread n c else n) <$> prev !! i.
Proof. unfold updateNote. apply list_lookup_fmap. Qed.

(** C10: [updateNote] keeps the collection's length and order; the note it
    updates keeps its [id] and [page], and every field the change object
    does not name; all notes with another [id] are unchanged.  A drag move
    names [xPct] and [yPct] only, so it leaves [id], [page] and [content];
    a save names [content] only, so it leaves [id], [page], [xPct] and
    [yPct]. *)
Theorem updateNote_frame (id0 : Z) (c : changes) (prev : list note) (i : nat) (n : note) :
  prev !! i = Some n →
  length (updateNote id0 c prev) = length prev
  ∧ ∃ n', updateNote id0 c prev !! i = Some n'
          ∧ id n' = id n
          ∧ page n' = page n
          ∧ (ch_xPct c = None → xPct n' = xPct n)
          ∧ (ch_yPct c = None → yPct n' = yPct n)
          ∧ (ch_content c = None → content n' = content n)
          ∧ (id n ≠ id0 → n' = n)
          ∧ (∀ d clientX clientY rect,
               c = onMouseMove d clientX clientY rect → content n' = content n)
          ∧ (∀ draft, c = handleSave draft → xPct n' = xPct n ∧ yPct n' = yPct n).
Proof.
  intros Hn. split; [apply length_fmap|].
  rewrite updateNote_lookup, Hn. simpl.
  eexists; split; [done|].
  case_decide as Hid; simpl.
  - split_and!; try done.
    + by intros ->.
    + by intros ->.
    + by intros ->.
    + by intros d clientX clientY rect ->.
    + by intros draft ->.
  - split_and!; done.
Qed.

Lemma updateNote_frame_witness :
  length (updateNote 11 (handleSave "edited") two_notes) = length two_notes
  ∧ ∃ n', updateNote 11 (handleSave "edited") two_notes !! 1%nat = Some n'
          ∧ n' = {| id := 12; page := 3; xPct := 40; yPct := 60; content := "second" |}.
Proof.
  destruct (updateNote_frame 11 (handleSave "edited") two_notes 1
              {| id := 12; page := 3; xPct := 40; yPct := 60; content := "second" |} eq_refl)
    as (Hlen & n' & Hlookup & _ & _ & _ & _ & _ & Hother & _).
  split; [exact Hlen|]. exists n'. split; [exact Hlookup|]. by apply Hother.
Defined.

(** C6: the pixel position of a note is [(xPct/100, yPct/100)] times the
    rendered width and height of its page, so scaling the rendered page by
    [k] scales the position by exactly [k]; zooming changes the scale and
    leaves the stored notes as they are.  A note at (10, 20) is drawn at
    (60, 180) on a 600×900 page and at (120, 360) on a 1200×1800 page. *)
Theorem notePixel_zoom_invariant (n : note) (rendered : dims) (k : Q) (s : reader) :
  notePixel n rendered
  = ((xPct n / 100 * width rendered)%Q, (yPct n / 100 * height rendered)%Q)
  ∧ ((notePixel n (scale_dims k rendered)).1 == k * (notePixel n rendered).1)%Q
  ∧ ((notePixel n (scale_dims k rendered)).2 == k * (notePixel n rendered).2)%Q
  ∧ notes (zoomIn s) = notes s
  ∧ notes (zoomOut s) = notes s
  ∧ (xPct n = 10%Q → yPct n = 20%Q →
     ((notePixel n {| width := 600; height := 900 |}).1 == 60)%Q
     ∧ ((notePixel n {| width := 600; height := 900 |}).2 == 180)%Q
     ∧ ((notePixel n (scale_dims 2 {| width := 600; height := 900 |})).1 == 120)%Q
     ∧ ((notePixel n (scale_dims 2 {| width := 600; height := 900 |})).2 == 360)%Q).
Proof.
  unfold notePixel, resolve_style, stickyStyle, scale_dims. simpl.
  split_and!; try done; try (field; done).
  intros -> ->. split_and!; by vm_compute.
Qed.

Lemma clamp_max_min (v : Q) : (Qmax 0 (Qmin 95 v) == clamp_spec v 0 95)%Q.
Proof.
  unfold clamp_spec.
  destruct (Q.max_spec 0 (Qmin 95 v)) as [[Hmax ->]|[Hmax ->]];
    destruct (Q.min_spec 95 v) as [[Hmin Heq]|[Hmin Heq]];
    rewrite ?Heq in *; repeat case_decide; lra.
Qed.

Lemma clamp_spec_range (v : Q) : (0 <= clamp_spec v 0 95 <= 95)%Q.
Proof.
  unfold clamp_spec. repeat case_decide; split; try done; try lra.
Qed.

(** C7: each pointer move of a drag session sets
    [xPct = clamp(startXPct + (Δx / w) · 100, 0, 95)] and
    [yPct = clamp(startYPct + (Δy / h) · 100, 0, 95)], with [Δx], [Δy] the
    pointer's offset from where the drag began and [w], [h] the rendered
    size of the page; both values lie in the inclusive range [0, 95].  The
    session starts at the stored position of a note that is not being
    edited.  The page has positive dimensions: there the exact quotient is
    the quotient the handler computes. *)
Theorem onMouseMove_clamped (d : drag) (clientX clientY : Q) (rect : dims) :
  (0 < width rect)%Q →
  (0 < height rect)%Q →
  ∃ x y,
    onMouseMove d clientX clientY rect
    = {| ch_xPct := Some x; ch_yPct := Some y; ch_content := None |}
    ∧ (x == clamp_spec (startXPct d + (clientX - startMouseX d) / width rect * 100) 0 95)%Q
    ∧ (y == clamp_spec (startYPct d + (clientY - startMouseY d) / height rect * 100) 0 95)%Q
    ∧ (0 <= x <= 95)%Q
    ∧ (0 <= y <= 95)%Q
    ∧ (∀ editing button has_pageEl n downX downY,
         handleMouseDown editing button has_pageEl n downX downY = Some d →
         editing = false
         ∧ startXPct d = xPct n ∧ startYPct d = yPct n
         ∧ startMouseX d = downX ∧ startMouseY d = downY).
Proof.
  intros _ _. unfold onMouseMove. eexists _, _. split; [done|].
  split_and!; try apply clamp_max_min;
    try (rewrite clamp_max_min; apply clamp_spec_range).
  intros editing button has_pageEl n downX downY. unfold handleMouseDown.
  destruct editing; [done|]. simpl.
  destruct (negb (button =? 0)); [done|]. destruct has_pageEl; [|done].
  by intros [= <-].
Qed.

Lemma onMouseMove_clamped_witness :
  ∃ x y,
    onMouseMove {| startMouseX := 100; startMouseY := 100; startXPct := 90; startYPct := 5 |}
                400 10 {| width := 600; height := 900 |}
    = {| ch_xPct := Some x; ch_yPct := Some y; ch_content := None |}
    ∧ (x == 95)%Q ∧ (y == 0)%Q.
Proof.
  destruct (onMouseMove_clamped
              {| startMouseX := 100; startMouseY := 100; startXPct := 90; startYPct := 5 |}
              400 10 {| width := 600; height := 900 |})
    as (x & y & Hmove & Hx & Hy & _); [done|done|].
  exists x, y. split; [exact Hmove|].
  split; [rewrite Hx|rewrite Hy]; by vm_compute.
Defined.

(** ** Placeholders *)

Lemma Math_round_nearest (x : Q) :
  (x - (1 # 2) < inject_Z (Math_round x) <= x + (1 # 2))%Q.
Proof.
  unfold Math_round.
  pose proof (Qfloor_le (x + (1 # 2))) as Hle.
  pose proof (Qlt_floor (x + (1 # 2))) as Hlt.
  rewrite inject_Z_plus in Hlt. change (inject_Z 1) with 1%Q in Hlt.
  split; lra.
Qed.

Lemma Math_round_exact (x : Q) :
  (inject_Z (Math_round x) == x)%Q ↔ ∃ n : Z, (x == inject_Z n)%Q.
Proof.
  split; [intros Hx; by exists (Math_round x)|].
  intros [n Hn]. unfold Math_round.
  pose proof (Qfloor_le (x + (1 # 2))) as Hle.
  pose proof (Qlt_floor (x + (1 # 2))) as Hlt.
  assert (inject_Z (Qfloor (x + (1 # 2))) < inject_Z (n + 1))%Q as Hup.
  { rewrite inject_Z_plus. change (inject_Z 1) with 1%Q. lra. }
  assert (inject_Z n < inject_Z (Qfloor (x + (1 # 2)) + 1))%Q as Hdown by lra.
  rewrite <- Zlt_Qlt in Hup, Hdown.
  assert (Qfloor (x + (1 # 2)) = n) as -> by lia. by symmetry.
Qed.

Lemma Math_round_Number_nearest (product : spec_float) (x : Q) :
  Number_value product = Some x →
  ∃ w, Math_round_Number product = Some w
       ∧ (x - (1 # 2) < inject_Z w <= x + (1 # 2))%Q
       ∧ ((inject_Z w == x)%Q ↔ ∃ n : Z, (x == inject_Z n)%Q).
Proof.
  intros Hx. exists (Math_round x). unfold Math_round_Number. rewrite Hx.
  split; [done|]. split; [apply Math_round_nearest|apply Math_round_exact].
Qed.

(** [Number_of_Q] on the scales 0.7 and 1.2, on a tenth and on a whole
    number: the binary64 values 0x3FE6666666666666, 0x3FF3333333333333,
    0x3FB999999999999A and 612. *)
Lemma Number_of_Q_values :
  Number_of_Q (7 # 10) = S754_finite false 6305039478318694 (-53)
  ∧ Number_of_Q (12 # 10) = S754_finite false 5404319552844595 (-52)
  ∧ Number_of_Q (1 # 10) = S754_finite false 7205759403792794 (-56)
  ∧ Number_of_Q 612 = S754_finite false 5383208929591296 (-43)
  ∧ Number_of_Q (70 # 100) = Number_of_Q (7 # 10).
Proof. split_and!; by vm_compute. Qed.

(** With the default page of 612 by 792 the product is finite at every
    scale the zoom buttons reach, and the placeholder is the exact product
    rounded to the nearest pixel. *)
Lemma placeholder_default_page (k : Z) :
  5 ≤ k ≤ 30 →
  placeholderW (setScale (λ _, inject_Z k / 10)%Q (mount (12 # 10)))
  = Some (Math_round (612 * (inject_Z k / 10)))
  ∧ placeholderH (setScale (λ _, inject_Z k / 10)%Q (mount (12 # 10)))
    = Some (Math_round (792 * (inject_Z k / 10))).
Proof.
  intros Hk. assert (k ∈ seqZ 5 26) as Hin by (apply elem_of_seqZ; lia).
  clear Hk. revert k Hin. apply Forall_forall.
  apply (bool_decide_unpack _). by vm_compute.
Qed.

(** The products are the Number products of the source: at 645 by 0.7 the
    Number product lies just below 451.5 and the reader reserves 451
    pixels, where the exact product 451.5 would round to 452. *)
Lemma placeholder_Number_product :
  (scale zoomed_to_07 == 7 # 10)%Q
  ∧ placeholderW zoomed_to_07 = Some 451
  ∧ (width (baseDims zoomed_to_07) * scale zoomed_to_07 == 4515 # 10)%Q
  ∧ Math_round (width (baseDims zoomed_to_07) * scale zoomed_to_07) = 452.
Proof. split_and!; by vm_compute. Qed.

(** C9, as stated, fails: at the initial scale 1.2 the placeholder of page 7
    of a 10-page document with the default 612×792 page is 734 pixels wide
    and 950 pixels high, not 734.4 by 950.4: neither the exact products nor
    the Number products, which lie within a thousandth of them. *)
Lemma placeholder_exact_counterexample :
  bool_decide (7 ∈ renderedPages (numPages (rd opened_10_pages))
                                 (currentPage (rd opened_10_pages))) = false
  ∧ slot_width (pageSlot (rd opened_10_pages) 7) = Some (Some 734)
  ∧ slot_height (pageSlot (rd opened_10_pages) 7) = Some (Some 950)
  ∧ (width (baseDims (rd opened_10_pages)) * scale (rd opened_10_pages) == 7344 # 10)%Q
  ∧ (height (baseDims (rd opened_10_pages)) * scale (rd opened_10_pages) == 9504 # 10)%Q
  ∧ ¬ (inject_Z 734 == 7344 # 10)%Q
  ∧ ¬ (inject_Z 950 == 9504 # 10)%Q
  ∧ (∃ x, Number_value
            (Number_mul (Number_of_Q (width (baseDims (rd opened_10_pages))))
                        (Number_of_Q (scale (rd opened_10_pages)))) = Some x
          ∧ (734399 # 1000 < x < 734401 # 1000)%Q)
  ∧ (∃ y, Number_value
            (Number_mul (Number_of_Q (height (baseDims (rd opened_10_pages))))
                        (Number_of_Q (scale (rd opened_10_pages)))) = Some y
          ∧ (950399 # 1000 < y < 950401 # 1000)%Q).
Proof.
  split_and!; try by vm_compute.
  - eexists. split; [by vm_compute|]. by vm_compute.
  - eexists. split; [by vm_compute|]. by vm_compute.
Qed.

(** C9, amended: the slot of a page outside the render window is given the
    width [Math.round(reference width × scale)] and the height
    [Math.round(reference height × scale)], where the products are the
    Number products the reader computes: when a product is finite, a whole
    number of pixels within half a pixel of it, equal to it exactly when it
    is whole; and no [<Page>] is mounted in the slot. *)
Theorem placeholder_sizing (s : reader) (pageNum : Z) :
  pageNum ∉ renderedPages (numPages s) (currentPage s) →
  let productW :=
    Number_mul (Number_of_Q (width (baseDims s))) (Number_of_Q (scale s)) in
  let productH :=
    Number_mul (Number_of_Q (height (baseDims s))) (Number_of_Q (scale s)) in
  slot_width (pageSlot s pageNum) = Some (Math_round_Number productW)
  ∧ slot_height (pageSlot s pageNum) = Some (Math_round_Number productH)
  ∧ page_mounted (pageSlot s pageNum) = false
  ∧ (∀ x, Number_value productW = Some x →
       ∃ w, slot_width (pageSlot s pageNum) = Some (Some w)
            ∧ (x - (1 # 2) < inject_Z w <= x + (1 # 2))%Q
            ∧ ((inject_Z w == x)%Q ↔ ∃ n : Z, (x == inject_Z n)%Q))
  ∧ (∀ y, Number_value productH = Some y →
       ∃ h, slot_height (pageSlot s pageNum) = Some (Some h)
            ∧ (y - (1 # 2) < inject_Z h <= y + (1 # 2))%Q
            ∧ ((inject_Z h == y)%Q ↔ ∃ n : Z, (y == inject_Z n)%Q)).
Proof.
  intros Hout. cbn zeta. unfold pageSlot. cbn [slot_width slot_height page_mounted].
  rewrite bool_decide_eq_false_2 by done. unfold placeholderW, placeholderH.
  split_and!; try done.
  - intros x Hx. destruct (Math_round_Number_nearest _ x Hx) as (w & -> & Hw).
    by exists w.
  - intros y Hy. destruct (Math_round_Number_nearest _ y Hy) as (h & -> & Hh).
    by exists h.
Qed.

Lemma placeholder_sizing_witness :
  slot_width (pageSlot (rd opened_10_pages) 7) = Some (Some 734)
  ∧ slot_height (pageSlot (rd opened_10_pages) 7) = Some (Some 950)
  ∧ page_mounted (pageSlot (rd opened_10_pages) 7) = false.
Proof.
  destruct (placeholder_sizing (rd opened_10_pages) 7) as (Hw & Hh & Hmounted & _).
  - apply (bool_decide_unpack (7 ∉ _)). by vm_compute.
  - split; [rewrite Hw; by vm_compute|].
    split; [rewrite Hh; by vm_compute|exact Hmounted].
Defined.

(** ** Bookmarks *)

Lemma filter_none {A} (P : A → Prop) `{∀ x, Decision (P x)} (l : list A) :
  (∀ x, x ∈ l → ¬ P x) → filter P l = [].
Proof.
  induction l as [|a l IH]; intros Hall; [done|].
  rewrite filter_cons_False by (apply Hall; left).
  apply IH. intros x Hx. apply Hall. by right.
Qed.

Lemma filter_only {A} (P : A → Prop) `{∀ x, Decision (P x)} (l : list A) (x : A) :
  NoDup l → x ∈ l → (∀ q, q ∈ l → P q ↔ q = x) → filter P l = [x].
Proof.
  induction l as [|a l IH]; intros Hnodup Hx HP; [by apply elem_of_nil in Hx|].
  apply NoDup_cons in Hnodup as [Ha Hnodup].
  destruct (HP a) as [HPa1 HPa2]; [left|].
  apply elem_of_cons in Hx as [->|Hx].
  - rewrite filter_cons_True by auto. f_equal.
    apply filter_none. intros q Hq HPq.
    apply HP in HPq; [|by right]. by subst.
  - rewrite filter_cons_False by (intros HPa; apply HPa1 in HPa; by subst).
    apply IH; [done|done|]. intros q Hq. apply HP. by right.
Qed.

Lemma StronglySorted_filter {A} (R : relation A) (P : A → Prop)
    `{∀ x, Decision (P x)} (l : list A) :
  StronglySorted R l → StronglySorted R (filter P l).
Proof.
  induction 1 as [|a l Hsorted IH Hall]; [constructor|].
  destruct (decide (P a)).
  - rewrite filter_cons_True by done. constructor; [done|].
    rewrite Forall_forall in Hall. apply Forall_forall.
    intros x [_ Hx]%list_elem_of_filter. by apply Hall.
  - by rewrite filter_cons_False.
Qed.

Lemma elem_of_toggleBookmark (page : Z) (prev : list Z) (q : Z) :
  q ∈ toggleBookmark page prev ↔ (q ≠ page ∧ q ∈ prev) ∨ (q = page ∧ page ∉ prev).
Proof.
  unfold toggleBookmark. case_bool_decide as Hin.
  - rewrite list_elem_of_filter. tauto.
  - rewrite merge_sort_Permutation, elem_of_app, list_elem_of_singleton.
    split.
    + intros [Hq| ->]; [|by right]. left. split; [|done]. by intros ->.
    + intros [[_ Hq]|[-> _]]; [by left|by right].
Qed.

Lemma toggleBookmark_sorted (page : Z) (prev : list Z) :
  Sorted Z.le prev → Sorted Z.le (toggleBookmark page prev).
Proof.
  intros Hsorted. unfold toggleBookmark. case_bool_decide.
  - apply StronglySorted_Sorted, StronglySorted_filter.
    apply Sorted_StronglySorted; [apply _|done].
  - apply Sorted_merge_sort. apply _.
Qed.

Lemma toggleBookmark_NoDup (page : Z) (prev : list Z) :
  NoDup prev → NoDup (toggleBookmark page prev).
Proof.
  intros Hnodup. unfold toggleBookmark. case_bool_decide as Hin.
  - by apply NoDup_filter.
  - rewrite merge_sort_Permutation. apply NoDup_app. split_and!; [done| |apply NoDup_singleton].
    intros q Hq ->%list_elem_of_singleton. done.
Qed.

Lemma toggle_all_sorted (pages prev : list Z) :
  Sorted Z.le prev → NoDup prev →
  Sorted Z.le (toggle_all pages prev) ∧ NoDup (toggle_all pages prev).
Proof.
  unfold toggle_all. revert prev.
  induction pages as [|p pages IH]; intros prev Hsorted Hnodup; simpl; [done|].
  apply IH; [by apply toggleBookmark_sorted|by apply toggleBookmark_NoDup].
Qed.

Section bookmarks_sync.
Context `{Countable K}.

(** The calls of one update: an insert for each page of the new sequence
    that the old one lacks, a delete for each page of the old sequence that
    the new one lacks, and nothing else. *)
Lemma updateBookmarks_calls (bookId : K) (updater : list Z → list Z)
    (prev : gmap K (list Z)) (b : K) (p : Z) :
  (InsertBookmark b p ∈ (updateBookmarks bookId updater prev).2
   ↔ b = bookId ∧ p ∈ updater (default [] (prev !! bookId))
     ∧ p ∉ default [] (prev !! bookId))
  ∧ (DeleteBookmark b p ∈ (updateBookmarks bookId updater prev).2
     ↔ b = bookId ∧ p ∈ default [] (prev !! bookId)
       ∧ p ∉ updater (default [] (prev !! bookId))).
Proof.
  unfold updateBookmarks. simpl.
  rewrite !elem_of_app, !list_elem_of_fmap.
  setoid_rewrite list_elem_of_filter.
  split; split.
  - intros [(q & [= -> ->] & Hq)|(q & [=] & _)]. tauto.
  - intros (-> & Hnew & Hold). left. by exists p.
  - intros [(q & [=] & _)|(q & [= -> ->] & Hq)]. tauto.
  - intros (-> & Hold & Hnew). right. by exists p.
Qed.

(** The calls of one toggle on a duplicate-free sequence: exactly one. *)
Lemma updateBookmarks_toggle (bookId : K) (page : Z) (prev : gmap K (list Z)) :
  NoDup (default [] (prev !! bookId)) →
  (updateBookmarks bookId (toggleBookmark page) prev).2
  = if bool_decide (page ∈ default [] (prev !! bookId))
    then [DeleteBookmark bookId page]
    else [InsertBookmark bookId page].
Proof.
  intros Hnodup. unfold updateBookmarks. simpl.
  set (old := default [] (prev !! bookId)) in *.
  case_bool_decide as Hin.
  - rewrite filter_none, (filter_only _ old page); [done|done|done| |].
    + intros q Hq. rewrite elem_of_toggleBookmark. split.
      * intros Hno. destruct (decide (q = page)); [done|]. destruct Hno. by left.
      * intros -> [[? _]|[_ ?]]; done.
    + intros q Hq. apply elem_of_toggleBookmark in Hq as [[_ ?]|[_ ?]]; tauto.
  - rewrite (filter_none _ old).
    2:{ intros q Hq Hno. apply Hno. apply elem_of_toggleBookmark. left.
        split; [by intros ->|done]. }
    rewrite app_nil_r. f_equal.
    unfold toggleBookmark. rewrite bool_decide_eq_false_2 by done.
    apply Permutation_singleton_r.
    rewrite merge_sort_Permutation, filter_app, (filter_none _ old) by tauto.
    simpl. by rewrite filter_cons_True, filter_nil by done.
Qed.
End bookmarks_sync.

Lemma toggleBookmark_absent (page : Z) (prev : list Z) :
  page ∉ prev → toggleBookmark page prev = merge_sort Z.le (prev ++ [page]).
Proof. intros Hout. unfold toggleBookmark. by rewrite bool_decide_eq_false_2. Qed.

Lemma toggleBookmark_present (page : Z) (prev : list Z) :
  page ∈ prev → toggleBookmark page prev = filter (λ p, p ≠ page) prev.
Proof. intros Hin. unfold toggleBookmark. by rewrite bool_decide_eq_true_2. Qed.

Lemma toggleBookmark_twice_nil (page : Z) :
  toggleBookmark page [] = [page] ∧ toggleBookmark page [page] = [].
Proof.
  split.
  - by rewrite toggleBookmark_absent by apply not_elem_of_nil.
  - rewrite toggleBookmark_present by apply list_elem_of_singleton, eq_refl.
    by rewrite filter_cons_False, filter_nil by (intros Hne; by apply Hne).
Qed.

Section bookmarks_pairing.
Context `{Countable K}.

(** C8: toggling a bookmarked page removes it and toggling an absent page
    inserts it; a sorted sequence stays sorted under every mutation, and an
    insertion sorts whatever it is given, so every sequence reached from
    the empty one is sorted ascending.  Toggling a page twice from the
    empty sequence gives the empty sequence back.  The sync calls of an
    update are an insert for exactly the pages of the new sequence that
    are not in the old one and a delete for exactly the pages of the old
    one that are not in the new one: one call per toggle, and for the
    double toggle one insert followed by one delete. *)
Theorem toggle_pairing (bookId : K) (page : Z) (prev : list Z) (store : gmap K (list Z)) :
  (page ∈ prev →
   toggleBookmark page prev = filter (λ p, p ≠ page) prev
   ∧ page ∉ toggleBookmark page prev)
  ∧ (page ∉ prev →
     page ∈ toggleBookmark page prev
     ∧ toggleBookmark page prev ≡ₚ prev ++ [page]
     ∧ Sorted Z.le (toggleBookmark page prev))
  ∧ (∀ q, q ≠ page → q ∈ toggleBookmark page prev ↔ q ∈ prev)
  ∧ (Sorted Z.le prev →
     Sorted Z.le (toggleBookmark page prev) ∧ Sorted Z.le (removeBookmark page prev))
  ∧ (∀ pages, Sorted Z.le (toggle_all pages []) ∧ NoDup (toggle_all pages []))
  ∧ toggleBookmark page (toggleBookmark page []) = []
  ∧ (∀ updater b p,
       (InsertBookmark b p ∈ (updateBookmarks bookId updater store).2
        ↔ b = bookId ∧ p ∈ updater (default [] (store !! bookId))
          ∧ p ∉ default [] (store !! bookId))
       ∧ (DeleteBookmark b p ∈ (updateBookmarks bookId updater store).2
          ↔ b = bookId ∧ p ∈ default [] (store !! bookId)
            ∧ p ∉ updater (default [] (store !! bookId))))
  ∧ (NoDup (default [] (store !! bookId)) →
     (updateBookmarks bookId (toggleBookmark page) store).2
     = if bool_decide (page ∈ default [] (store !! bookId))
       then [DeleteBookmark bookId page]
       else [InsertBookmark bookId page])
  ∧ (default [] (store !! bookId) = [] →
     updateBookmarks_all bookId [toggleBookmark page; toggleBookmark page] store
     = (<[bookId := []]> store,
        [InsertBookmark bookId page; DeleteBookmark bookId page])).
Proof.
  split_and!.
  - intros Hin. split; [by apply toggleBookmark_present|].
    rewrite elem_of_toggleBookmark. tauto.
  - intros Hout. split_and!.
    + apply elem_of_toggleBookmark. by right.
    + rewrite toggleBookmark_absent by done. apply merge_sort_Permutation.
    + rewrite toggleBookmark_absent by done. apply Sorted_merge_sort. apply _.
  - intros q Hne. rewrite elem_of_toggleBookmark. tauto.
  - intros Hsorted. split; [by apply toggleBookmark_sorted|].
    apply StronglySorted_Sorted, StronglySorted_filter.
    apply Sorted_StronglySorted; [apply _|done].
  - intros pages. apply toggle_all_sorted; constructor.
  - destruct (toggleBookmark_twice_nil page) as [-> ->]. done.
  - intros updater b p. apply updateBookmarks_calls.
  - apply updateBookmarks_toggle.
  - intros Hempty. simpl.
    destruct (toggleBookmark_twice_nil page) as [Hfirst Hsecond].
    unfold updateBookmarks. rewrite Hempty, Hfirst. simpl.
    rewrite lookup_insert_eq. simpl. by rewrite Hsecond, insert_insert_eq.
Qed.
End bookmarks_pairing.

Lemma toggle_pairing_page_5 :
  toggleBookmark 5 (toggleBookmark 5 []) = []
  ∧ updateBookmarks_all "book" [toggleBookmark 5; toggleBookmark 5] ∅
    = (<["book" := []]> ∅, [InsertBookmark "book" 5; DeleteBookmark "book" 5]).
Proof.
  destruct (toggle_pairing "book" 5 [] ∅) as (_ & _ & _ & _ & _ & Htwice & _ & _ & Hsync).
  split; [exact Htwice|]. by apply Hsync.
Defined.

(** * Further properties *)

(** ** The resolver keeps the reader on a page of the document *)

Lemma last_ratio_Some_inv (p : Z) (entries : list entry) (acc : option Q) :
  is_Some (last_ratio p entries acc) →
  is_Some acc ∨ ∃ x, x ∈ entries ∧ dataset_page x = p.
Proof.
  unfold last_ratio. revert acc.
  induction entries as [|x entries IH]; intros acc; simpl; [by left|].
  intros [Hacc|(y & Hy & Hp)]%IH.
  - case_decide as Hx; [|by left]. right. exists x. split; [left|done].
  - right. exists y. split; [by right|done].
Qed.

Lemma step_on_a_page (pages : Z) (w w' : world) (e : event) :
  on_a_page pages (rd w) → event_in pages e → step w e = Some w' →
  on_a_page pages (rd w').
Proof.
  intros (Hpages & Hcur & Hkeys) He Hstep.
  pose proof (step_currentPage _ _ _ Hstep) as Hcur'.
  assert (∀ q, ratioMapRef (rd w') !! q
               = match e with
                 | Intersect _ entries => last_ratio q entries (ratioMapRef (rd w) !! q)
                 | _ => ratioMapRef (rd w) !! q
                 end) as Hmap by (intros q; by apply step_ratioMap).
  apply step_inv in Hstep as (_ & _ & Hstep).
  unfold on_a_page. destruct e as [t entries|t handle|t]; simpl in Hcur'.
  - destruct Hstep as [Hrd _]. split; [|split].
    + rewrite Hrd. unfold onIntersect. by destruct (ioThrottleRef (rd w)).
    + by rewrite Hcur'.
    + intros q. rewrite Hmap. intros [Hold|(x & Hx & <-)]%last_ratio_Some_inv.
      * by apply Hkeys.
      * unfold event_in, entries_in in He. rewrite Forall_forall in He. by apply He.
  - destruct Hstep as (_ & Hrd & _). split; [|split].
    + by rewrite Hrd.
    + rewrite Hcur'. destruct (commit (ratioMapRef (rd w))) as [p|] eqn:Hcommit; [|done].
      simpl. apply commit_Some in Hcommit as (r & Hp & _).
      apply Hkeys. by exists r.
    + intros q. rewrite Hmap. apply Hkeys.
  - destruct Hstep as [Hrd _]. split; [|split].
    + by rewrite Hrd.
    + by rewrite Hcur'.
    + intros q. rewrite Hmap. apply Hkeys.
Qed.

(** X1: a reader that is on a page of its document stays on a page of it
    through every series of batches for its page slots, ticks and cleanups;
    so the current page is always inside its own render window, and the
    window is never empty. *)
Theorem resolver_stays_on_a_page (pages : Z) (w w' : world) (evs : list event) :
  on_a_page pages (rd w) →
  Forall (event_in pages) evs →
  run w evs = Some w' →
  on_a_page pages (rd w')
  ∧ currentPage (rd w') ∈ renderedPages (numPages (rd w')) (currentPage (rd w')).
Proof.
  intros Hw Hevs Hrun.
  assert (on_a_page pages (rd w')) as Hw'.
  { revert w Hw Hrun. induction Hevs as [|e evs He Hevs IH]; intros w Hw; simpl.
    - by intros [= <-].
    - destruct (step w e) as [w1|] eqn:Hstep; [|done]. simpl.
      apply IH. by eapply step_on_a_page. }
  split; [done|]. destruct Hw' as (-> & Hcur & _).
  rewrite renderedPages_loaded by lia. apply elem_of_computeWindow.
  unfold PDF_RENDER_BUFFER. lia.
Qed.

Lemma resolver_stays_on_a_page_witness :
  (λ w, bool_decide (currentPage (rd w)
                     ∈ renderedPages (numPages (rd w)) (currentPage (rd w))))
    <$> run opened_10_pages far_scroll_back = Some true.
Proof.
  destruct (run opened_10_pages far_scroll_back) as [w'|] eqn:Hrun;
    [|by vm_compute in Hrun].
  simpl. f_equal. apply bool_decide_eq_true_2.
  apply (resolver_stays_on_a_page 10 opened_10_pages w' far_scroll_back); [| |done].
  - split; [done|split; [done|]]. intros q [r Hq]. by vm_compute in Hq.
  - repeat constructor; simpl; lia.
Defined.

(** ** Cleanup, progress and frame of the resolver *)

Lemma punctual_step (w w' : world) (e : event) :
  punctual w → step w e = Some w' → punctual w'.
Proof.
  unfold punctual. intros Hw Hstep.
  apply step_inv in Hstep as (Hle & Hclock & Hstep). rewrite Hclock.
  destruct e as [t entries|t fired|t]; simpl in *.
  - destruct Hstep as [_ ->].
    destruct ((onIntersect (next_handle w) entries (rd w)).2) as [delay|] eqn:Hreq.
    + assert (delay = COMMIT_DELAY) as ->.
      { unfold onIntersect in Hreq. destruct (ioThrottleRef (rd w)); by inversion Hreq. }
      intros handle due [[_ <-]|[_ Hold]]%lookup_insert_Some; [lia|].
      apply Hw in Hold. lia.
    + intros handle due Hold. apply Hw in Hold. lia.
  - destruct Hstep as (_ & _ & ->).
    intros handle due [_ Hold]%lookup_delete_Some. apply Hw in Hold. lia.
  - destruct Hstep as [_ ->]. simpl.
    destruct (ioThrottleRef (rd w)).
    + intros handle due [_ Hold]%lookup_delete_Some. apply Hw in Hold. lia.
    + intros handle due Hold. apply Hw in Hold. lia.
Qed.

(** X2: the effect cleanup cancels the pending commit.  After it the
    browser holds no timeout of the reader, no tick can be delivered, and
    as long as no new batch arrives nothing but further cleanups can
    happen: the current page stays as the cleanup found it. *)
Theorem cleanup_cancels_commit (w w1 w' : world) (t : Z) (evs : list event) :
  throttled w →
  step w (Cleanup t) = Some w1 →
  forallb (negb ∘ is_intersect) evs = true →
  run w1 evs = Some w' →
  timers w1 = ∅
  ∧ ioThrottleRef (rd w1) = None
  ∧ (∀ t' handle, step w1 (TimerFires t' handle) = None)
  ∧ forallb is_cleanup evs = true
  ∧ currentPage (rd w') = currentPage (rd w).
Proof.
  intros Hw Hstep Hevs Hrun.
  pose proof (throttled_step _ _ _ Hw Hstep) as Hw1.
  pose proof (step_currentPage _ _ _ Hstep) as Hcur. simpl in Hcur.
  apply step_inv in Hstep as (_ & _ & Hrd & _).
  assert (ioThrottleRef (rd w1) = None) as Hidle by (by rewrite Hrd).
  assert (timers w1 = ∅) as Hnone.
  { unfold throttled in Hw1. by rewrite Hidle in Hw1. }
  split_and!; [done|done| | |].
  - intros t' handle. unfold step. case_decide; [done|]. by rewrite Hnone, lookup_empty.
  - clear Hcur Hrd. revert w1 Hw1 Hidle Hnone Hrun.
    induction evs as [|e evs IH]; intros w1 Hw1 Hidle Hnone; simpl; [done|].
    simpl in Hevs. apply andb_prop in Hevs as [He Hevs].
    destruct (step w1 e) as [w2|] eqn:Hstep; [|done]. simpl. intros Hrun.
    pose proof (throttled_step _ _ _ Hw1 Hstep) as Hw2.
    apply step_inv in Hstep as (_ & _ & Hstep).
    destruct e as [| t' fired |t']; [done| |].
    + destruct Hstep as ((due & Hdue & _) & _). by rewrite Hnone in Hdue.
    + destruct Hstep as [Hrd Htimers]. simpl.
      apply (IH Hevs w2); [done| | |done].
      * by rewrite Hrd.
      * rewrite Htimers. simpl. by rewrite Hidle.
  - rewrite <- Hcur. clear Hcur Hrd. revert w1 Hw1 Hidle Hnone Hrun.
    induction evs as [|e evs IH]; intros w1 Hw1 Hidle Hnone; simpl; [by intros [= <-]|].
    simpl in Hevs. apply andb_prop in Hevs as [He Hevs].
    destruct (step w1 e) as [w2|] eqn:Hstep; [|done]. simpl. intros Hrun.
    pose proof (throttled_step _ _ _ Hw1 Hstep) as Hw2.
    pose proof (step_currentPage _ _ _ Hstep) as Hcur.
    apply step_inv in Hstep as (_ & _ & Hstep).
    destruct e as [| t' fired |t']; [done| |].
    + destruct Hstep as ((due & Hdue & _) & _). by rewrite Hnone in Hdue.
    + destruct Hstep as [Hrd Htimers]. simpl in Hcur. rewrite <- Hcur.
      apply (IH Hevs w2); [done| | |done].
      * by rewrite Hrd.
      * rewrite Htimers. simpl. by rewrite Hidle.
Qed.

Lemma cleanup_cancels_commit_witness :
  (λ w, timers w) <$> run opened_10_pages (take 1 far_scroll ++ [Cleanup 50]) = Some ∅
  ∧ run opened_10_pages (take 1 far_scroll ++ [Cleanup 50; TimerFires 100 1]) = None.
Proof.
  destruct (run opened_10_pages (take 1 far_scroll)) as [w|] eqn:Hrun;
    [|by vm_compute in Hrun].
  destruct (step w (Cleanup 50)) as [w1|] eqn:Hstep;
    [|vm_compute in Hrun; injection Hrun as <-; by vm_compute in Hstep].
  assert (throttled w) as Hw.
  { apply (throttled_run opened_10_pages _ (take 1 far_scroll)); [reflexivity|done]. }
  destruct (cleanup_cancels_commit w w1 w1 50 [] Hw Hstep eq_refl eq_refl)
    as (Hnone & _ & Hrefused & _).
  rewrite !run_app, Hrun. simpl. rewrite Hstep. simpl.
  split; [by rewrite Hnone|]. by rewrite Hrefused.
Defined.

(** X3: no batch is lost.  After a batch the reader holds the handle of a
    pending timeout that is due at most 100ms after the batch, and the tick
    of that timeout, whenever the browser delivers it, decides on the ratio
    map that includes the batch. *)
Theorem batch_is_committed (w w1 : world) (t : Z) (entries : list entry) :
  throttled w →
  punctual w →
  step w (Intersect t entries) = Some w1 →
  ∃ handle due,
    ioThrottleRef (rd w1) = Some handle
    ∧ timers w1 = {[ handle := due ]}
    ∧ due ≤ t + COMMIT_DELAY
    ∧ ∀ t', t ≤ t' → due ≤ t' →
        ∃ w2, step w1 (TimerFires t' handle) = Some w2
              ∧ currentPage (rd w2)
                = default (currentPage (rd w))
                    (commit (merge_entries entries (ratioMapRef (rd w)))).
Proof.
  intros Hw Hpunctual Hstep.
  pose proof (throttled_step _ _ _ Hw Hstep) as Hw1.
  pose proof (punctual_step _ _ _ Hpunctual Hstep) as Hpunctual1.
  apply step_inv in Hstep as (_ & Hclock & Hrd & _). simpl in Hclock.
  destruct (onIntersect_state (next_handle w) entries (rd w)) as [Hcur Hmap].
  rewrite <- Hrd in Hcur, Hmap.
  assert (is_Some (ioThrottleRef (rd w1))) as [handle Hhandle].
  { rewrite Hrd. unfold onIntersect. by destruct (ioThrottleRef (rd w)). }
  unfold throttled in Hw1. rewrite Hhandle in Hw1. destruct Hw1 as [due Htimers].
  exists handle, due. split_and!; [done|done| |].
  - specialize (Hpunctual1 handle due). rewrite Htimers, lookup_singleton_eq in Hpunctual1.
    specialize (Hpunctual1 eq_refl). lia.
  - intros t' Ht' Hdue. unfold step. simpl.
    rewrite decide_False by lia.
    rewrite Htimers, lookup_singleton_eq, decide_True by done.
    eexists. split; [done|]. simpl. by rewrite Hcur, Hmap.
Qed.

Lemma batch_is_committed_witness :
  ∃ handle due,
    timers <$> step opened_10_pages
                 (Intersect 0 [ {| dataset_page := 1; intersectionRatio := 7 # 10 |};
                                {| dataset_page := 2; intersectionRatio := 3 # 10 |} ])
    = Some {[ handle := due ]}
    ∧ due ≤ 0 + COMMIT_DELAY.
Proof.
  destruct (step opened_10_pages
              (Intersect 0 [ {| dataset_page := 1; intersectionRatio := 7 # 10 |};
                             {| dataset_page := 2; intersectionRatio := 3 # 10 |} ]))
    as [w1|] eqn:Hstep; [|by vm_compute in Hstep].
  destruct (batch_is_committed opened_10_pages w1 0 _ eq_refl
              ltac:(intros h d Hd; by vm_compute in Hd) Hstep)
    as (handle & due & _ & Htimers & Hdue & _).
  exists handle, due. split; [|done]. simpl. by rewrite Htimers.
Defined.

(** X4: the resolver touches nothing but the current page, the ratio map
    and the timer handle: no series of its events changes the page count,
    the zoom scale, the page geometry or the notes. *)
Theorem resolver_frame (w w' : world) (evs : list event) :
  run w evs = Some w' →
  numPages (rd w') = numPages (rd w)
  ∧ scale (rd w') = scale (rd w)
  ∧ baseDims (rd w') = baseDims (rd w)
  ∧ notes (rd w') = notes (rd w)
  ∧ ∀ pageNum, slot_notes (pageSlot (rd w') pageNum) = slot_notes (pageSlot (rd w) pageNum).
Proof.
  intros Hrun.
  assert (numPages (rd w') = numPages (rd w) ∧ scale (rd w') = scale (rd w)
          ∧ baseDims (rd w') = baseDims (rd w) ∧ notes (rd w') = notes (rd w))
    as (Hpages & Hscale & Hdims & Hnotes).
  { revert w Hrun. induction evs as [|e evs IH]; intros w; simpl.
    - by intros [= <-].
    - destruct (step w e) as [w1|] eqn:Hstep; [|done]. simpl. intros Hrun.
      destruct (IH _ Hrun) as (-> & -> & -> & ->).
      apply step_inv in Hstep as (_ & _ & Hstep).
      destruct e as [t entries|t fired|t].
      + destruct Hstep as [-> _]. unfold onIntersect.
        by destruct (ioThrottleRef (rd w)).
      + by destruct Hstep as (_ & -> & _).
      + by destruct Hstep as [-> _]. }
  split_and!; try done.
  intros pageNum. unfold pageSlot. simpl. by rewrite Hnotes.
Qed.

Lemma resolver_frame_witness :
  (λ w, scale (rd w)) <$> run opened_10_pages far_scroll = Some (12 # 10)%Q.
Proof.
  destruct (run opened_10_pages far_scroll) as [w'|] eqn:Hrun; [|by vm_compute in Hrun].
  simpl. f_equal.
  by destruct (resolver_frame opened_10_pages w' far_scroll Hrun) as (_ & -> & _).
Defined.

(** ** Navigation buttons *)

(** X5: before the document has loaded the next-page button is disabled and
    [scrollToPage] scrolls nowhere.  On a page of a loaded document the
    previous-page button is disabled exactly on page 1 and the next-page
    button exactly on the last page; an enabled button scrolls to the
    neighbouring page, which has a slot and lies in the render window. *)
Theorem navigation_buttons (s : reader) :
  (numPages s = None → nextDisabled s = true ∧ ∀ n, scrollToPage s n = None)
  ∧ (∀ pages,
       numPages s = Some pages →
       1 ≤ currentPage s ≤ pages →
       (prevDisabled s = true ↔ currentPage s = 1)
       ∧ (nextDisabled s = true ↔ currentPage s = pages)
       ∧ (prevDisabled s = false →
          scrollToPage s (prevTarget s) = Some (currentPage s - 1)
          ∧ currentPage s - 1 ∈ renderedPages (numPages s) (currentPage s))
       ∧ (nextDisabled s = false →
          scrollToPage s (nextTarget s) = Some (currentPage s + 1)
          ∧ currentPage s + 1 ∈ renderedPages (numPages s) (currentPage s))).
Proof.
  split.
  - intros Hnone. unfold nextDisabled, scrollToPage, has_slot. by rewrite Hnone.
  - intros pages Hpages Hcur.
    unfold prevDisabled, nextDisabled, prevTarget, nextTarget, numPages_or_1,
      scrollToPage, has_slot.
    rewrite Hpages, renderedPages_loaded by lia.
    rewrite (bool_decide_eq_false_2 (pages = 0)) by lia.
    rewrite decide_False by lia. simpl.
    split_and!.
    + rewrite bool_decide_eq_true. lia.
    + rewrite bool_decide_eq_true. lia.
    + rewrite bool_decide_eq_false. intros Hprev.
      replace (Z.max 1 (currentPage s - 1)) with (currentPage s - 1) by lia.
      rewrite bool_decide_eq_true_2 by lia. split; [done|].
      apply elem_of_computeWindow. unfold PDF_RENDER_BUFFER. lia.
    + rewrite bool_decide_eq_false. intros Hnext.
      replace (Z.min pages (currentPage s + 1)) with (currentPage s + 1) by lia.
      rewrite bool_decide_eq_true_2 by lia. split; [done|].
      apply elem_of_computeWindow. unfold PDF_RENDER_BUFFER. lia.
Qed.

(** ** Zoom *)

Lemma Qfloor_half (k : Z) : Qfloor (inject_Z k + (1 # 2)) = k.
Proof.
  unfold Qfloor, inject_Z, Qplus. simpl.
  symmetry. apply Z.div_unique with (r := 1); lia.
Qed.

Lemma toFixed1_near (x : Q) :
  (x - (1 # 20) < toFixed1 x <= x + (1 # 20))%Q.
Proof.
  unfold toFixed1.
  pose proof (Qfloor_le (x * 10 + (1 # 2))) as Hle.
  pose proof (Qlt_floor (x * 10 + (1 # 2))) as Hlt.
  rewrite inject_Z_plus in Hlt. change (inject_Z 1) with 1%Q in Hlt.
  set (z := inject_Z (Qfloor (x * 10 + (1 # 2)))) in *.
  split; [apply Qlt_shift_div_l|apply Qle_shift_div_r]; lra.
Qed.

Lemma toFixed1_tenth (k : Z) : (toFixed1 (inject_Z k / 10) == inject_Z k / 10)%Q.
Proof.
  unfold toFixed1.
  assert (inject_Z k / 10 * 10 + (1 # 2) == inject_Z k + (1 # 2))%Q as -> by field.
  by rewrite Qfloor_half.
Qed.

Lemma toFixed1_ge (x : Q) (k : Z) :
  (inject_Z k / 10 <= x)%Q → (inject_Z k / 10 <= toFixed1 x)%Q.
Proof.
  intros Hx. unfold toFixed1.
  apply Qle_shift_div_l; [done|].
  assert (inject_Z k / 10 * 10 == inject_Z k)%Q as -> by field.
  rewrite <- Zle_Qle, <- (Qfloor_half k).
  apply Qfloor_resp_le.
  assert (inject_Z k == inject_Z k / 10 * 10)%Q as Hk by field. lra.
Qed.

Lemma toFixed1_le (x : Q) (k : Z) :
  (x <= inject_Z k / 10)%Q → (toFixed1 x <= inject_Z k / 10)%Q.
Proof.
  intros Hx. unfold toFixed1.
  apply Qle_shift_div_r; [done|].
  assert (inject_Z k / 10 * 10 == inject_Z k)%Q as -> by field.
  rewrite <- Zle_Qle, <- (Qfloor_half k).
  apply Qfloor_resp_le.
  assert (inject_Z k == inject_Z k / 10 * 10)%Q as Hk by field. lra.
Qed.

Lemma tenth_up (k : Z) (x : Q) :
  (x == inject_Z k / 10)%Q → (x + (2 # 10) == inject_Z (k + 2) / 10)%Q.
Proof.
  intros Hk. rewrite Hk, inject_Z_plus.
  change (inject_Z 2) with (2 # 1)%Q. field.
Qed.

Lemma tenth_down (k : Z) (x : Q) :
  (x == inject_Z k / 10)%Q → (x - (2 # 10) == inject_Z (k - 2) / 10)%Q.
Proof.
  intros Hk. rewrite Hk. replace (k - 2) with (k + (-2)) by lia.
  rewrite inject_Z_plus. change (inject_Z (-2)) with (-2 # 1)%Q. field.
Qed.

Lemma tenth_percent (k : Z) (x : Q) :
  (x == inject_Z k / 10)%Q → (x * 100 + (1 # 2) == inject_Z (10 * k) + (1 # 2))%Q.
Proof.
  intros Hk. rewrite Hk, inject_Z_mult.
  change (inject_Z 10) with (10 # 1)%Q. field.
Qed.

#[local] Instance toFixed1_proper : Proper (Qeq ==> Qeq) toFixed1.
Proof. intros x y Hxy. unfold toFixed1. by rewrite Hxy. Qed.

(** X6: zooming keeps the scale within [0.5, 3.0] and on a multiple of a
    tenth.  Away from the bounds a zoom step changes a scale that is a
    multiple of a tenth by exactly 0.2, and zooming in and out again gives
    the scale back; from 2.8 upwards zooming in gives 3.0, and from 0.7
    downwards zooming out gives 0.5.  The zoom label of a scale [k/10] shows
    [10k] percent. *)
Theorem zoom_steps (s : reader) :
  (1 # 2 <= scale s <= 3)%Q →
  (1 # 2 <= scale (zoomIn s) <= 3)%Q
  ∧ (1 # 2 <= scale (zoomOut s) <= 3)%Q
  ∧ tenth (scale (zoomIn s))
  ∧ tenth (scale (zoomOut s))
  ∧ (28 # 10 <= scale s → scale (zoomIn s) == 3)%Q
  ∧ (scale s <= 7 # 10 → scale (zoomOut s) == 1 # 2)%Q
  ∧ (tenth (scale s) →
     ((scale s <= 28 # 10)%Q →
      (scale (zoomIn s) == scale s + (2 # 10))%Q
      ∧ (scale (zoomOut (zoomIn s)) == scale s)%Q)
     ∧ ((7 # 10 <= scale s)%Q →
        (scale (zoomOut s) == scale s - (2 # 10))%Q
        ∧ (scale (zoomIn (zoomOut s)) == scale s)%Q)
     ∧ ∀ k, (scale s == inject_Z k / 10)%Q → zoomPercent s = 10 * k).
Proof.
  intros [Hlo Hhi]. unfold zoomIn, zoomOut, setScale. simpl.
  pose proof (toFixed1_near (scale s + (2 # 10))) as [Hin1 Hin2].
  pose proof (toFixed1_near (scale s - (2 # 10))) as [Hout1 Hout2].
  assert (∀ x, tenth (Qmin 3 (toFixed1 x))) as Htenth_in.
  { intros x. destruct (Q.min_spec 3 (toFixed1 x)) as [[_ Heq]|[_ Heq]].
    - exists 30. by rewrite Heq.
    - eexists. rewrite Heq. reflexivity. }
  assert (∀ x, tenth (Qmax (1 # 2) (toFixed1 x))) as Htenth_out.
  { intros x. destruct (Q.max_spec (1 # 2) (toFixed1 x)) as [[_ Heq]|[_ Heq]].
    - eexists. rewrite Heq. reflexivity.
    - exists 5. by rewrite Heq. }
  assert (∀ k, (1 # 2 <= inject_Z k / 10)%Q →
               (Qmax (1 # 2) (toFixed1 (inject_Z k / 10)) == inject_Z k / 10)%Q) as Hmax.
  { intros k Hk. rewrite toFixed1_tenth. by apply Q.max_r. }
  assert (∀ k, (inject_Z k / 10 <= 3)%Q →
               (Qmin 3 (toFixed1 (inject_Z k / 10)) == inject_Z k / 10)%Q) as Hmin.
  { intros k Hk. rewrite toFixed1_tenth. by apply Q.min_r. }
  split_and!.
  - apply Q.min_glb; lra.
  - apply Q.min_le_iff. by left.
  - apply Q.max_le_iff. by left.
  - apply Q.max_lub; lra.
  - apply Htenth_in.
  - apply Htenth_out.
  - intros Hs. apply Q.min_l.
    assert (inject_Z 30 / 10 == 3)%Q as Heq by reflexivity.
    rewrite <- Heq. apply toFixed1_ge. rewrite Heq. lra.
  - intros Hs. apply Q.max_l.
    assert (inject_Z 5 / 10 == 1 # 2)%Q as Heq by reflexivity.
    rewrite <- Heq. apply toFixed1_le. rewrite Heq. lra.
  - intros [k Hk]. split_and!.
    + intros Hs.
      pose proof (tenth_up k _ Hk) as Hup.
      assert (Qmin 3 (toFixed1 (scale s + (2 # 10))) == scale s + (2 # 10))%Q as Hzoomed.
      { rewrite Hup. apply Hmin. rewrite <- Hup. lra. }
      split; [done|]. rewrite Hzoomed.
      assert (scale s + (2 # 10) - (2 # 10) == inject_Z k / 10)%Q as -> by (rewrite Hk; field).
      rewrite Hmax; [by rewrite Hk|]. rewrite <- Hk. done.
    + intros Hs.
      pose proof (tenth_down k _ Hk) as Hdown.
      assert (Qmax (1 # 2) (toFixed1 (scale s - (2 # 10))) == scale s - (2 # 10))%Q
        as Hzoomed.
      { rewrite Hdown. apply Hmax. rewrite <- Hdown. lra. }
      split; [done|]. rewrite Hzoomed.
      assert (scale s - (2 # 10) + (2 # 10) == inject_Z k / 10)%Q as -> by (rewrite Hk; field).
      rewrite Hmin; [by rewrite Hk|]. rewrite <- Hk. done.
    + intros k' Hk'. unfold zoomPercent, Math_round.
      rewrite (Qfloor_comp _ _ (tenth_percent k' _ Hk')).
      apply Qfloor_half.
Qed.

Lemma zoom_steps_witness :
  (scale (zoomIn (mount (12 # 10))) == 14 # 10)%Q
  ∧ (scale (zoomOut (zoomIn (mount (12 # 10)))) == 12 # 10)%Q
  ∧ zoomPercent (mount (12 # 10)) = 120.
Proof.
  destruct (zoom_steps (mount (12 # 10))) as (_ & _ & _ & _ & _ & _ & Htenth);
    [by vm_compute|].
  destruct Htenth as (Hin & _ & Hpercent); [by exists 12|].
  destruct Hin as [Hin Hback]; [by vm_compute|].
  split_and!; [by rewrite Hin|by rewrite Hback|].
  by apply (Hpercent 12).
Defined.

(** ** Sticky notes: creation, deletion and the store *)

Lemma deleteNote_absent (id0 : Z) (prev : list note) :
  (∀ n, n ∈ prev → id n ≠ id0) → deleteNote id0 prev = prev.
Proof.
  intros Habsent. unfold deleteNote.
  induction prev as [|n prev IH]; [done|].
  rewrite filter_cons_True by (apply Habsent; left).
  f_equal. apply IH. intros m Hm. apply Habsent. by right.
Qed.

Lemma updateNote_absent (id0 : Z) (c : changes) (prev : list note) :
  (∀ n, n ∈ prev → id n ≠ id0) → updateNote id0 c prev = prev.
Proof.
  intros Habsent. unfold updateNote.
  induction prev as [|n prev IH]; [done|]. rewrite fmap_cons.
  rewrite decide_False by (apply Habsent; left).
  f_equal. apply IH. intros m Hm. apply Habsent. by right.
Qed.



(** X8: deleting a note removes every note of that id and keeps all the
    others in their order; deleting or updating an id that no note has
    changes nothing; an update followed by the deletion of the same note is
    the deletion alone, and after a deletion an update of that note has no
    effect. *)
Theorem deleteNote_updateNote (id0 : Z) (c : changes) (prev : list note) :
  (∀ n, n ∈ deleteNote id0 prev ↔ n ∈ prev ∧ id n ≠ id0)
  ∧ deleteNote id0 prev `sublist_of` prev
  ∧ ((∀ n, n ∈ prev → id n ≠ id0) →
     deleteNote id0 prev = prev ∧ updateNote id0 c prev = prev)
  ∧ deleteNote id0 (deleteNote id0 prev) = deleteNote id0 prev
  ∧ deleteNote id0 (updateNote id0 c prev) = deleteNote id0 prev
  ∧ updateNote id0 c (deleteNote id0 prev) = deleteNote id0 prev.
Proof.
  assert (∀ n, n ∈ deleteNote id0 prev → id n ≠ id0) as Hgone.
  { intros n Hn. unfold deleteNote in Hn. by apply list_elem_of_filter in Hn as [? _]. }
  split_and!.
  - intros n. unfold deleteNote. rewrite list_elem_of_filter. tauto.
  - apply sublist_filter.
  - intros Habsent. split; [by apply deleteNote_absent|by apply updateNote_absent].
  - by apply deleteNote_absent.
  - unfold deleteNote, updateNote.
    induction prev as [|n prev IH]; [done|]. rewrite fmap_cons.
    destruct (decide (id n = id0)) as [Heq|Hne].
    + rewrite !filter_cons_False by (simpl; intros Hne; by apply Hne).
      apply IH. intros m Hm. apply Hgone. unfold deleteNote.
      by rewrite filter_cons_False by (intros Hne; by apply Hne).
    + rewrite !filter_cons_True by done. f_equal.
      apply IH. intros m Hm. apply Hgone. unfold deleteNote.
      rewrite filter_cons_True by done. by right.
  - by apply updateNote_absent.
Qed.

(** X9: the payload sent to the table names exactly the fields of the
    change under their column names: the row it updates, read back as the
    load effect reads rows, is the note the optimistic local update shows.
    A change that names no field sends nothing and changes nothing. *)
Theorem updateNote_payload_agrees (c : changes) (r : note_row) :
  match updateNote_payload c with
  | Some p => note_of_row (update_row p r) = spread (note_of_row r) c
  | None => spread (note_of_row r) c = note_of_row r
  end
  ∧ (updateNote_payload c = None
     ↔ ch_xPct c = None ∧ ch_yPct c = None ∧ ch_content c = None).
Proof.
  unfold updateNote_payload, update_row, spread, note_of_row.
  destruct c as [[x|] [y|] [t|]]; simpl; split; try done;
    split; (done || by intros (? & ? & ?)).
Qed.

(** ** StickyNote: drag sessions and clicks *)

(** A later change that names every field an earlier one names makes the
    earlier one invisible. *)
Lemma updateNote_overwrite (id0 : Z) (c1 c2 : changes) (prev : list note) :
  (is_Some (ch_xPct c1) → is_Some (ch_xPct c2)) →
  (is_Some (ch_yPct c1) → is_Some (ch_yPct c2)) →
  (is_Some (ch_content c1) → is_Some (ch_content c2)) →
  updateNote id0 c2 (updateNote id0 c1 prev) = updateNote id0 c2 prev.
Proof.
  intros Hx Hy Ht. unfold updateNote. rewrite <- list_fmap_compose.
  apply list_fmap_ext. intros _ n _. simpl.
  destruct (decide (id n = id0)) as [Heq|Hne].
  - simpl. rewrite decide_True by done. unfold spread. simpl.
    destruct c1 as [[x1|] [y1|] [t1|]], c2 as [[x2|] [y2|] [t2|]]; simpl in *;
      try done;
      try (by destruct Hx as [? [=]]); try (by destruct Hy as [? [=]]);
      try (by destruct Ht as [? [=]]).
  - by rewrite decide_False by done.
Qed.

Lemma updateNote_all_moves (id0 : Z) (calls : list changes) (c : changes) (prev : list note) :
  Forall is_move calls → is_move c →
  updateNote_all id0 (calls ++ [c]) prev = updateNote id0 c prev.
Proof.
  unfold updateNote_all. intros Hcalls (Hx & Hy & Ht). rewrite foldl_app. simpl.
  revert prev. induction Hcalls as [|c1 calls (Hx1 & Hy1 & Ht1) Hcalls IH]; intros prev;
    simpl; [done|].
  rewrite IH. apply updateNote_overwrite; [done|done|].
  rewrite Ht1. by intros [? [=]].
Qed.

Lemma sticky_run_app (n : note) (st : sticky) (es1 es2 : list pointer) :
  sticky_run n st (es1 ++ es2)
  = let '(st1, calls) := sticky_run n st es1 in
    let '(st2, calls') := sticky_run (foldl spread n calls) st1 es2 in
    (st2, calls ++ calls').
Proof.
  revert n st. induction es1 as [|e es1 IH]; intros n st; simpl.
  - by destruct (sticky_run n st es2).
  - destruct (sticky_step n st e) as [st1 calls]. rewrite IH.
    destruct (sticky_run (foldl spread n calls) st1 es1) as [st2 calls2].
    rewrite foldl_app.
    destruct (sticky_run _ st2 es2) as [st3 calls3]. by rewrite app_assoc.
Qed.

(** The moves of a session that is the only one attached. *)
Lemma sticky_run_moves (n : note) (st : sticky) (d : drag) (moves : list (Q * Q * dims)) :
  listeners st = [d] →
  sticky_run n st ((λ m, MouseMove m.1.1 m.1.2 m.2) <$> moves)
  = ({| editing := editing st;
        draft := draft st;
        didDrag := match moves with [] => didDrag st | _ => true end;
        listeners := [d] |},
     (λ m, onMouseMove d m.1.1 m.1.2 m.2) <$> moves).
Proof.
  revert n st. induction moves as [|m moves IH]; intros n st Hd; simpl.
  - rewrite <- Hd. by destruct st.
  - rewrite Hd. simpl. rewrite IH by done. simpl. by destruct moves.
Qed.

(** X10: a gesture on a collapsed note with no drag in progress either
    drags or clicks, never both.  With at least one pointer move it
    repositions the note and the editor stays closed; with none it makes no
    update and opens the editor.  Each move issues one position update,
    computed from the position the note had when the button went down, so
    the notes after the gesture are those of its last move alone.  After
    the release no listener is left. *)
Theorem drag_or_click (n : note) (st : sticky) (downX downY : Q)
    (moves : list (Q * Q * dims)) (prev : list note) :
  editing st = false →
  listeners st = [] →
  ∃ st' d,
    handleMouseDown false 0 true n downX downY = Some d
    ∧ sticky_run n st (gesture downX downY moves)
      = (st', (λ m, onMouseMove d m.1.1 m.1.2 m.2) <$> moves)
    ∧ editing st' = bool_decide (moves = [])
    ∧ didDrag st' = false
    ∧ listeners st' = []
    ∧ draft st' = draft st
    ∧ updateNote_all (id n) ((λ m, onMouseMove d m.1.1 m.1.2 m.2) <$> moves) prev
      = match last moves with
        | Some m => updateNote (id n) (onMouseMove d m.1.1 m.1.2 m.2) prev
        | None => prev
        end.
Proof.
  intros Hediting Hidle.
  set (d := {| startMouseX := downX; startMouseY := downY;
               startXPct := xPct n; startYPct := yPct n |}).
  assert (sticky_run n st (gesture downX downY moves)
          = ({| editing := bool_decide (moves = []); draft := draft st;
                didDrag := false; listeners := [] |},
             (λ m, onMouseMove d m.1.1 m.1.2 m.2) <$> moves)) as Hrun.
  { unfold gesture. simpl. rewrite Hediting, Hidle. simpl.
    rewrite sticky_run_app, (sticky_run_moves _ _ d) by done. simpl.
    destruct moves as [|m moves]; simpl; by rewrite ?app_nil_r. }
  eexists _, d. split; [done|]. split; [exact Hrun|]. simpl.
  split_and!; try done.
  destruct moves as [|m moves _] using rev_ind; [done|].
  rewrite last_snoc, fmap_app. simpl.
  apply updateNote_all_moves; [|by split_and!].
  apply Forall_fmap, Forall_forall. intros x _. by split_and!.
Qed.

Lemma drag_or_click_witness :
  editing (sticky_run {| id := 12; page := 3; xPct := 40; yPct := 60; content := "second" |}
             (sticky_mount {| id := 12; page := 3; xPct := 40; yPct := 60;
                              content := "second" |})
             (gesture 100 100 [(130%Q, 100%Q, {| width := 600; height := 900 |})])).1
  = false
  ∧ editing (sticky_run {| id := 12; page := 3; xPct := 40; yPct := 60; content := "second" |}
               (sticky_mount {| id := 12; page := 3; xPct := 40; yPct := 60;
                                content := "second" |})
               (gesture 100 100 [])).1
    = true.
Proof.
  split.
  - destruct (drag_or_click {| id := 12; page := 3; xPct := 40; yPct := 60; content := "second" |}
                (sticky_mount {| id := 12; page := 3; xPct := 40; yPct := 60;
                                 content := "second" |})
                100 100 [(130%Q, 100%Q, {| width := 600; height := 900 |})] two_notes
                eq_refl eq_refl) as (st' & d & _ & Hrun & Hediting & _).
    rewrite Hrun. simpl. by rewrite Hediting.
  - destruct (drag_or_click {| id := 12; page := 3; xPct := 40; yPct := 60; content := "second" |}
                (sticky_mount {| id := 12; page := 3; xPct := 40; yPct := 60;
                                 content := "second" |})
                100 100 [] two_notes eq_refl eq_refl) as (st' & d & _ & Hrun & Hediting & _).
    rewrite Hrun. simpl. by rewrite Hediting.
Defined.

(** X11: a press that is not a left-button press, or a press while the
    editor is open, starts no drag and leaves the component as it is; when
    no drag session is attached pointer moves issue no update; saving
    closes the editor and issues exactly one update, which carries the
    draft as the content and no position, so that the saved note keeps its
    place. *)
Theorem sticky_guards (n : note) (st : sticky) (prev : list note) :
  (∀ button has_pageEl x y,
     editing st = true ∨ button ≠ 0 →
     sticky_step n st (MouseDown button has_pageEl x y) = (st, []))
  ∧ (∀ x y rect,
       listeners st = [] → sticky_step n st (MouseMove x y rect) = (st, []))
  ∧ (∀ x y, listeners (sticky_step n st (MouseDown 0 false x y)).1 = listeners st)
  ∧ (∀ st' calls,
       sticky_step n st Save = (st', calls) →
       editing st' = false
       ∧ calls = [handleSave (draft st)]
       ∧ ∀ i m, prev !! i = Some m →
           ∃ m', updateNote_all (id n) calls prev !! i = Some m'
                 ∧ xPct m' = xPct m ∧ yPct m' = yPct m ∧ page m' = page m
                 ∧ (id m = id n → content m' = draft st)
                 ∧ (id m ≠ id n → m' = m)).
Proof.
  split_and!.
  - intros button has_pageEl x y Hguard. simpl.
    destruct Hguard as [->|Hbutton]; [done|].
    apply Z.eqb_neq in Hbutton. rewrite Hbutton. by rewrite orb_true_r.
  - intros x y rect Hidle. destruct st; simpl in *. by subst.
  - intros x y. simpl. destruct (editing st); [done|]. simpl.
    by rewrite app_nil_r.
  - intros st' calls [= <- <-]. split_and!; [done|done|].
    intros i m Hm. unfold updateNote_all. simpl.
    rewrite updateNote_lookup, Hm. simpl. eexists. split; [done|].
    case_decide; simpl; by split_and!.
Qed.

(** ** Bookmarks: toggles undo each other, removals, other books *)

Lemma filter_all {A} (P : A → Prop) `{∀ x, Decision (P x)} (l : list A) :
  (∀ x, x ∈ l → P x) → filter P l = l.
Proof.
  induction l as [|a l IH]; intros Hall; [done|].
  rewrite filter_cons_True by (apply Hall; left).
  f_equal. apply IH. intros x Hx. apply Hall. by right.
Qed.

Lemma toggleBookmark_involutive (page : Z) (old : list Z) :
  Sorted Z.le old → NoDup old →
  toggleBookmark page (toggleBookmark page old) = old.
Proof.
  intros Hsorted Hnodup.
  apply (Sorted_unique Z.le).
  - by do 2 apply toggleBookmark_sorted.
  - done.
  - destruct (decide (page ∈ old)) as [Hin|Hout].
    + rewrite (toggleBookmark_present page old) by done.
      rewrite toggleBookmark_absent
        by (intros [Hne _]%list_elem_of_filter; by apply Hne).
      rewrite merge_sort_Permutation.
      rewrite <- (filter_app_complement (λ p, p ≠ page) old) at 2.
      f_equiv. rewrite (filter_only _ old page); [done|done|done|].
      intros q _. destruct (decide (q = page)); tauto.
    + rewrite (toggleBookmark_absent page old) by done.
      rewrite toggleBookmark_present
        by (rewrite merge_sort_Permutation; apply elem_of_app; right; left).
      rewrite merge_sort_Permutation, filter_app.
      rewrite filter_all by (intros q Hq ->; done).
      by rewrite filter_cons_False, filter_nil, app_nil_r by (intros Hne; by apply Hne).
Qed.

Section bookmarks_more.
Context `{Countable K}.

(** X12: on a sorted, duplicate-free bookmark list a second toggle of the
    same page undoes the first: the list is the one before, the ribbon's
    "bookmarked" state flips with each toggle, and the two toggles send
    exactly two calls that cancel — an insert then a delete of the page if
    it was not bookmarked, a delete then an insert if it was. *)
Theorem toggle_twice_restores (bookId : K) (page : Z) (old : list Z)
    (store : gmap K (list Z)) :
  default [] (store !! bookId) = old →
  Sorted Z.le old →
  NoDup old →
  toggleBookmark page (toggleBookmark page old) = old
  ∧ bool_decide (page ∈ toggleBookmark page old) = negb (bool_decide (page ∈ old))
  ∧ updateBookmarks_all bookId [toggleBookmark page; toggleBookmark page] store
    = (<[bookId := old]> store,
       if bool_decide (page ∈ old)
       then [DeleteBookmark bookId page; InsertBookmark bookId page]
       else [InsertBookmark bookId page; DeleteBookmark bookId page]).
Proof.
  intros Hold Hsorted Hnodup.
  pose proof (toggleBookmark_involutive page old Hsorted Hnodup) as Htwice.
  assert (bool_decide (page ∈ toggleBookmark page old) = negb (bool_decide (page ∈ old)))
    as Hflip.
  { destruct (decide (page ∈ old)) as [Hin|Hout].
    - rewrite (bool_decide_eq_true_2 (page ∈ old)) by done.
      apply bool_decide_eq_false_2. rewrite elem_of_toggleBookmark. tauto.
    - rewrite (bool_decide_eq_false_2 (page ∈ old)) by done.
      apply bool_decide_eq_true_2. rewrite elem_of_toggleBookmark. tauto. }
  split_and!; [done|done|].
  cbn [updateBookmarks_all].
  destruct (updateBookmarks bookId (toggleBookmark page) store) as [store1 calls1] eqn:Hfirst.
  destruct (updateBookmarks bookId (toggleBookmark page) store1) as [store2 calls2] eqn:Hsecond.
  pose proof (updateBookmarks_toggle bookId page store) as Hcalls1.
  pose proof (updateBookmarks_toggle bookId page store1) as Hcalls2.
  rewrite Hfirst in Hcalls1. rewrite Hsecond in Hcalls2. cbn [snd] in *.
  assert (store1 = <[bookId := toggleBookmark page old]> store) as Hstore1.
  { unfold updateBookmarks in Hfirst. rewrite Hold in Hfirst. by injection Hfirst as <- _. }
  assert (default [] (store1 !! bookId) = toggleBookmark page old) as Hold1
    by (by rewrite Hstore1, lookup_insert_eq).
  assert (store2 = <[bookId := old]> store) as ->.
  { unfold updateBookmarks in Hsecond. rewrite Hold1, Htwice in Hsecond.
    injection Hsecond as <- _. by rewrite Hstore1, insert_insert_eq. }
  rewrite Hold in Hcalls1. rewrite Hold1, Hflip in Hcalls2.
  rewrite Hcalls1 by done. rewrite Hcalls2 by (by apply toggleBookmark_NoDup).
  rewrite app_nil_r. by destruct (bool_decide (page ∈ old)).
Qed.

(** X13: an update of one book's bookmarks leaves the bookmarks of every
    other book as they are.  An updater that changes nothing about which
    pages are bookmarked sends no call; so removing a page that is not
    bookmarked is silent, while removing a bookmarked page of a
    duplicate-free list sends exactly one delete.  No update ever sends
    both an insert and a delete of the same page. *)
Theorem updateBookmarks_frame (bookId : K) (updater : list Z → list Z)
    (old : list Z) (store : gmap K (list Z)) (page : Z) :
  default [] (store !! bookId) = old →
  (∀ other, other ≠ bookId →
            ((updateBookmarks bookId updater store).1) !! other = store !! other)
  ∧ ((updateBookmarks bookId updater store).1) !! bookId = Some (updater old)
  ∧ ((∀ p, p ∈ updater old ↔ p ∈ old) → (updateBookmarks bookId updater store).2 = [])
  ∧ (page ∉ old →
     removeBookmark page old = old
     ∧ (updateBookmarks bookId (removeBookmark page) store).2 = [])
  ∧ (page ∈ old → NoDup old →
     (page ∉ removeBookmark page old)
     ∧ (updateBookmarks bookId (removeBookmark page) store).2
       = [DeleteBookmark bookId page])
  ∧ (∀ p, InsertBookmark bookId p ∈ (updateBookmarks bookId updater store).2 →
          DeleteBookmark bookId p ∉ (updateBookmarks bookId updater store).2).
Proof.
  intros Hold.
  assert (∀ u, (∀ p, p ∈ u old ↔ p ∈ old) → (updateBookmarks bookId u store).2 = [])
    as Hsilent.
  { intros u Hsame. unfold updateBookmarks. simpl. rewrite Hold.
    rewrite !filter_none; [done| |].
    - intros p Hp Hno. apply Hno. by apply Hsame.
    - intros p Hp Hno. apply Hno. by apply Hsame. }
  split_and!.
  - intros other Hne. unfold updateBookmarks. simpl. by rewrite lookup_insert_ne.
  - unfold updateBookmarks. simpl. by rewrite lookup_insert_eq, Hold.
  - apply Hsilent.
  - intros Hout.
    assert (removeBookmark page old = old) as Hsame.
    { unfold removeBookmark. apply filter_all. by intros q Hq ->. }
    split; [done|]. apply Hsilent. intros p. by rewrite Hsame.
  - intros Hin Hnodup. split.
    + unfold removeBookmark. rewrite list_elem_of_filter. tauto.
    + pose proof (updateBookmarks_toggle bookId page store) as Hcalls.
      rewrite Hold, (bool_decide_eq_true_2 (page ∈ old)) in Hcalls by done.
      rewrite <- Hcalls by done. unfold updateBookmarks. simpl. rewrite Hold.
      by rewrite (toggleBookmark_present page old).
  - intros p [_ [_ Hnew]]%updateBookmarks_calls [_ [Hin _]]%updateBookmarks_calls. done.
Qed.
End bookmarks_more.

Lemma toggle_twice_restores_witness :
  toggleBookmark 5 (toggleBookmark 5 [2; 5; 9]) = [2; 5; 9]
  ∧ (updateBookmarks_all "book" [toggleBookmark 5; toggleBookmark 5]
       {[ "book" := [2; 5; 9] ]}).2
    = [DeleteBookmark "book" 5; InsertBookmark "book" 5].
Proof.
  destruct (toggle_twice_restores "book" 5 [2; 5; 9] {[ "book" := [2; 5; 9] ]})
    as (Htwice & _ & Hsync).
  - by rewrite lookup_singleton_eq.
  - repeat constructor; lia.
  - apply (bool_decide_unpack (NoDup _)). by vm_compute.
  - split; [exact Htwice|]. by rewrite Hsync.
Defined.

Lemma updateBookmarks_frame_witness :
  ((updateBookmarks "book" (removeBookmark 5) {[ "book" := [2; 5; 9] ]}).1) !! "book"
  = Some (removeBookmark 5 [2; 5; 9]).
Proof.
  destruct (updateBookmarks_frame "book" (removeBookmark 5) [2; 5; 9]
              {[ "book" := [2; 5; 9] ]} 5) as (_ & Hnew & _).
  - by rewrite lookup_singleton_eq.
  - exact Hnew.
Defined.

(** ** Strings *)

Lemma is_white_not_word c : is_white c = true → is_word c = false.
Proof.
  unfold is_white, is_word.
  rewrite orb_true_iff, !bool_decide_eq_true, !elem_of_cons, elem_of_nil.
  intros Hc. rewrite !orb_false_iff, !bool_decide_eq_false. lia.
Qed.

Lemma trimStart_spec s :
  ∃ ws, s = ws ++ trimStart s ∧ Forall (λ c, is_white c = true) ws.
Proof.
  induction s as [|c s [ws [Hs Hws]]]; simpl.
  - by exists [].
  - destruct (is_white c) eqn:Hc.
    + exists (c :: ws). split; [by rewrite Hs at 1|by constructor].
    + by exists [].
Qed.

Lemma trimStart_head s c : head (trimStart s) = Some c → is_white c = false.
Proof.
  induction s as [|d s IH]; simpl; [done|].
  destruct (is_white d) eqn:Hd; [done|]. simpl. by intros [= <-].
Qed.

Lemma trimStart_id s :
  (∀ c, head s = Some c → is_white c = false) → trimStart s = s.
Proof. destruct s as [|c s]; simpl; [done|]. intros Hc. by rewrite Hc. Qed.

Lemma trimStart_all_white s :
  Forall (λ c, is_white c = true) s → trimStart s = [].
Proof. induction 1 as [|c s Hc _ IH]; simpl; [done|]. by rewrite Hc. Qed.

Lemma trimStart_nil s : trimStart s = [] → Forall (λ c, is_white c = true) s.
Proof.
  intros Hs. destruct (trimStart_spec s) as [ws [Heq Hws]].
  rewrite Heq, Hs, app_nil_r. done.
Qed.

Lemma trimEnd_spec s :
  ∃ ws, s = trimEnd s ++ ws ∧ Forall (λ c, is_white c = true) ws.
Proof.
  unfold trimEnd. destruct (trimStart_spec (reverse s)) as [ws [Hs Hws]].
  exists (reverse ws). split.
  - rewrite <- reverse_app, <- Hs. by rewrite reverse_involutive.
  - by apply Forall_reverse.
Qed.

Lemma trimEnd_last s c : last (trimEnd s) = Some c → is_white c = false.
Proof. unfold trimEnd. rewrite last_reverse. apply trimStart_head. Qed.

Lemma trimEnd_head s c :
  head (trimEnd s) = Some c → head s = Some c.
Proof.
  destruct (trimEnd_spec s) as [ws [Hs _]]. intros Hc.
  rewrite Hs. destruct (trimEnd s); [done|]. done.
Qed.

Lemma trim_head s c : head (trim s) = Some c → is_white c = false.
Proof. intros Hc. by apply trimEnd_head, trimStart_head in Hc. Qed.

Lemma trim_last s c : last (trim s) = Some c → is_white c = false.
Proof. apply trimEnd_last. Qed.

Lemma trim_sublist s : trim s `sublist_of` s.
Proof.
  unfold trim. destruct (trimStart_spec s) as [ws [Hs _]].
  destruct (trimEnd_spec (trimStart s)) as [ws' [Hs' _]].
  rewrite Hs at 2. apply sublist_inserts_l. rewrite Hs' at 2.
  by apply sublist_inserts_r.
Qed.

Lemma trim_nil s : trim s = [] ↔ Forall (λ c, is_white c = true) s.
Proof.
  unfold trim. split.
  - intros Hs. destruct (trimStart_spec s) as [ws [Heq Hws]].
    destruct (trimEnd_spec (trimStart s)) as [ws' [Heq' Hws']].
    rewrite Hs in Heq'. simpl in Heq'. rewrite Heq, Heq'.
    by apply Forall_app.
  - intros Hs. by rewrite trimStart_all_white.
Qed.

Lemma trimEnd_id s :
  (∀ c, last s = Some c → is_white c = false) → trimEnd s = s.
Proof.
  intros Hs. unfold trimEnd. rewrite trimStart_id.
  - apply reverse_involutive.
  - intros c. rewrite <- last_reverse, reverse_involutive. apply Hs.
Qed.

(** Trimming twice is trimming once. *)
Lemma trim_idemp s : trim (trim s) = trim s.
Proof.
  unfold trim at 1. rewrite trimStart_id by apply trim_head.
  apply trimEnd_id, trim_last.
Qed.

Lemma or_else_nonempty a b : b ≠ [] → or_else a b ≠ [].
Proof. by destruct a. Qed.

Lemma toUpperCase_word_not_lower c : is_lower (toUpperCase_word c) = false.
Proof.
  unfold toUpperCase_word. destruct (is_lower c) eqn:Hc; [|done].
  unfold is_lower in *. apply bool_decide_eq_true in Hc.
  apply bool_decide_eq_false. lia.
Qed.

Lemma is_lower_word c : is_lower c = true → is_word c = true.
Proof.
  unfold is_lower, is_word. intros Hc. rewrite Hc. apply orb_true_r.
Qed.

Lemma is_word_toUpperCase c : is_word (toUpperCase_word c) = is_word c.
Proof.
  unfold toUpperCase_word. destruct (is_lower c) eqn:Hc; [|done].
  rewrite (is_lower_word c Hc). unfold is_lower in Hc.
  apply bool_decide_eq_true in Hc. unfold is_word.
  rewrite !orb_true_iff, !bool_decide_eq_true. lia.
Qed.

Lemma capitalize_cons aw c s :
  capitalize aw (c :: s) = capital aw c :: capitalize (is_word c) s.
Proof. done. Qed.

Lemma is_word_capital aw c : is_word (capital aw c) = is_word c.
Proof.
  unfold capital. destruct (is_word c && negb aw); [|done].
  apply is_word_toUpperCase.
Qed.

Lemma is_white_capital aw c : is_white (capital aw c) = is_white c.
Proof.
  unfold capital. destruct (is_word c) eqn:Hw; simpl; [|done].
  destruct aw; simpl; [done|].
  destruct (is_white c) eqn:Hc.
  { apply is_white_not_word in Hc. congruence. }
  destruct (is_white (toUpperCase_word c)) eqn:Hc'; [|done].
  apply is_white_not_word in Hc'. rewrite is_word_toUpperCase in Hc'.
  congruence.
Qed.

Lemma capital_not_lower c : is_lower (capital false c) = false.
Proof.
  unfold capital. destruct (is_word c) eqn:Hw; simpl.
  - apply toUpperCase_word_not_lower.
  - destruct (is_lower c) eqn:Hl; [|done].
    apply is_lower_word in Hl. congruence.
Qed.

Lemma trimStart_capitalize s :
  trimStart (capitalize false s) = capitalize false (trimStart s).
Proof.
  induction s as [|c s IH]; [done|].
  rewrite capitalize_cons. cbn [trimStart]. rewrite is_white_capital.
  destruct (is_white c) eqn:Hc.
  - by rewrite (is_white_not_word c Hc).
  - by rewrite capitalize_cons.
Qed.

Lemma capitalize_pairs aw s i a b :
  capitalize aw s !! i = Some a → capitalize aw s !! S i = Some b →
  is_word a = false → is_lower b = false.
Proof.
  revert aw i. induction s as [|c s IH]; intros aw i; [done|].
  rewrite capitalize_cons. destruct i as [|i]; simpl.
  - intros [= <-]. rewrite is_word_capital. intros Hb Hc.
    destruct s as [|d s]; [done|]. rewrite capitalize_cons in Hb.
    simpl in Hb. injection Hb as <-. rewrite Hc. apply capital_not_lower.
  - apply IH.
Qed.

Lemma capitalized_trim s :
  (∀ i a b, s !! i = Some a → s !! S i = Some b →
            is_word a = false → is_lower b = false) →
  (∀ c, head (trimStart s) = Some c → is_lower c = false) →
  capitalized (trim s).
Proof.
  intros Hs Hhead. split.
  - intros c Hc. by apply Hhead, trimEnd_head.
  - intros i a b Ha Hb.
    destruct (trimStart_spec s) as [ws [Heq _]].
    destruct (trimEnd_spec (trimStart s)) as [ws' [Heq' _]].
    fold (trim s) in Heq'. rewrite Heq' in Heq.
    apply (Hs (length ws + i)%nat); rewrite Heq.
    + rewrite lookup_app_r by lia.
      replace (length ws + i - length ws)%nat with i by lia.
      by apply lookup_app_l_Some.
    + rewrite lookup_app_r by lia.
      replace (S (length ws + i) - length ws)%nat with (S i) by lia.
      by apply lookup_app_l_Some.
Qed.

Lemma strip_pdf_ext s ext :
  ext ∈ pdf_extensions → strip_pdf (s ++ ext) = s.
Proof.
  intros Hext. vm_compute in Hext.
  repeat (apply elem_of_cons in Hext as [->|Hext]);
    [..|by apply elem_of_nil in Hext];
    unfold strip_pdf; rewrite reverse_app; simpl;
    by rewrite reverse_involutive.
Qed.

Lemma strip_pdf_other s :
  (∀ ext, ext ∈ pdf_extensions → ¬ ext `suffix_of` s) → strip_pdf s = s.
Proof.
  intros Hs. unfold strip_pdf.
  destruct (reverse s) as [|f [|d [|p [|dot rest]]]] eqn:Hr; try done.
  destruct (_ && _) eqn:Hmatch; [|done]. exfalso.
  rewrite !andb_true_iff, !bool_decide_eq_true in Hmatch.
  destruct Hmatch as [[[-> Hp] Hd] Hf].
  apply (Hs [46%N; p; d; f]).
  - rewrite !elem_of_cons, elem_of_nil in Hp, Hd, Hf.
    destruct Hp as [->|[->|[]]], Hd as [->|[->|[]]], Hf as [->|[->|[]]];
      apply (bool_decide_unpack _); by vm_compute.
  - exists (reverse rest). rewrite <- (reverse_involutive s), Hr.
    by rewrite !reverse_cons, <- !app_assoc.
Qed.

Lemma capitalize_no_dash aw s c :
  c ∈ capitalize aw (dashes_to_spaces s) → c ≠ 45%N ∧ c ≠ 95%N.
Proof.
  revert aw. induction s as [|d s IH]; intros aw; simpl.
  { by rewrite elem_of_nil. }
  rewrite elem_of_cons. intros [->|Hc]; [|by eapply IH].
  case_bool_decide as Hd.
  { by vm_compute. }
  rewrite !elem_of_cons, elem_of_nil in Hd.
  unfold capital, toUpperCase_word, is_lower.
  destruct (_ && _); [|lia]. case_bool_decide; lia.
Qed.

Lemma DefaultCover_Some title : title ≠ [] → is_Some (DefaultCover title).
Proof.
  destruct title as [|c title]; [done|]. intros _. unfold DefaultCover.
  apply lookup_lt_is_Some. simpl.
  pose proof (N.mod_upper_bound c 5). lia.
Qed.

Lemma titleFromFilename_nonempty filename : titleFromFilename filename ≠ [].
Proof. by apply or_else_nonempty. Qed.

Lemma titleFromFilename_trimmed filename :
  trim (titleFromFilename filename) = titleFromFilename filename.
Proof.
  unfold titleFromFilename.
  destruct (trim (capitalize _ _)) as [|c t] eqn:Ht; [done|].
  cbn [or_else]. rewrite <- Ht. apply trim_idemp.
Qed.

(** X14: the title [titleFromFilename] makes of a file name is never empty,
    has no white space at either end, holds no hyphen and no underscore,
    and no lower-case letter starts it or follows a character that is not
    a word character; and [DefaultCover] has a gradient for it.  A final
    [.pdf] is dropped from the name whatever the case of its letters, and
    nothing else is: a name that does not end so is kept whole, and gets
    the same title with and without the extension. *)
Theorem titleFromFilename_clean (filename : list N) :
  let title := titleFromFilename filename in
  title ≠ [] ∧
  trim title = title ∧
  (∀ c, c ∈ title → c ≠ 45%N ∧ c ≠ 95%N) ∧
  capitalized title ∧
  is_Some (DefaultCover title) ∧
  (∀ ext, ext ∈ pdf_extensions → strip_pdf (filename ++ ext) = filename) ∧
  ((∀ ext, ext ∈ pdf_extensions → ¬ ext `suffix_of` filename) →
   strip_pdf filename = filename ∧
   ∀ ext, ext ∈ pdf_extensions →
          titleFromFilename (filename ++ ext) = titleFromFilename filename).
Proof.
  cbn zeta. split_and!.
  - apply titleFromFilename_nonempty.
  - apply titleFromFilename_trimmed.
  - unfold titleFromFilename. intros c.
    destruct (trim (capitalize _ _)) as [|d t] eqn:Ht; cbn [or_else].
    + intros Hc. revert c Hc. apply Forall_forall.
      apply (bool_decide_unpack _). by vm_compute.
    + rewrite <- Ht. intros Hc. eapply capitalize_no_dash.
      eapply elem_of_sublist; [done|apply trim_sublist].
  - unfold titleFromFilename.
    destruct (trim (capitalize _ _)) as [|d t] eqn:Ht; cbn [or_else].
    + change (units "Untitled Book")
        with (trim (capitalize false (units "untitled book"))).
      apply capitalized_trim; [apply capitalize_pairs|].
      rewrite trimStart_capitalize. intros c.
      destruct (trimStart _); [done|]. rewrite capitalize_cons.
      intros [= <-]. apply capital_not_lower.
    + rewrite <- Ht. apply capitalized_trim; [apply capitalize_pairs|].
      rewrite trimStart_capitalize. intros c.
      destruct (trimStart _); [done|]. rewrite capitalize_cons.
      intros [= <-]. apply capital_not_lower.
  - apply DefaultCover_Some, titleFromFilename_nonempty.
  - intros ext. apply strip_pdf_ext.
  - intros Hname. split; [by apply strip_pdf_other|].
    intros ext Hext. unfold titleFromFilename.
    by rewrite strip_pdf_ext, strip_pdf_other.
Qed.

Lemma replace_first_prefix pattern replacement s :
  replace_first pattern replacement (pattern ++ s) = replacement ++ s.
Proof.
  assert (∀ t, pattern `prefix_of` t →
    replace_first pattern replacement t
    = replacement ++ drop (length pattern) t) as Hunfold.
  { intros [|c t] Hp; cbn [replace_first]; by rewrite bool_decide_eq_true_2. }
  rewrite Hunfold by by apply prefix_app_r.
  by rewrite drop_app_length.
Qed.

Lemma replace_first_absent pattern replacement s :
  includes s pattern = false → replace_first pattern replacement s = s.
Proof.
  induction s as [|c s IH]; cbn [includes replace_first].
  - rewrite orb_false_r. intros Hp. by rewrite Hp.
  - rewrite orb_false_iff. intros [Hp Hs]. rewrite Hp. by rewrite IH.
Qed.

Lemma or_else_nil_r a : or_else a [] = a.
Proof. by destruct a. Qed.

Lemma includes_refl s : includes s s = true.
Proof. destruct s; cbn [includes]; by rewrite bool_decide_eq_true_2. Qed.

(** X15: [fetchBookInfo] gives nothing unless the request succeeded with an
    ok answer whose first item has its volume information; the title and
    the author it gives have no white space at either end, and the
    thumbnail has its first [http:] replaced by [https:], so that a
    thumbnail served over http comes back as an https address. *)
Theorem fetchBookInfo_answer (failed ok : bool)
    (items : option (list (option volume))) (info : bookInfo) :
  fetchBookInfo failed ok items = Some info →
  failed = false ∧ ok = true ∧
  ∃ vol rest,
    items = Some (Some vol :: rest) ∧
    trim (info_title info) = info_title info ∧
    trim (info_author info) = info_author info ∧
    (vol_title vol = None → info_title info = []) ∧
    (vol_authors vol = None ∨ vol_authors vol = Some [] → info_author info = []) ∧
    (vol_thumbnail vol = None → info_cover info = None) ∧
    (∀ address, vol_thumbnail vol = Some (units "http:" ++ address) →
                info_cover info = Some (units "https:" ++ address)) ∧
    (∀ url, vol_thumbnail vol = Some url →
            includes url (units "http:") = false →
            info_cover info = Some url).
Proof.
  unfold fetchBookInfo. destruct failed, ok; simpl; try done.
  destruct items as [[|[vol|] rest]|]; try done.
  intros [= <-]. split_and!; try done. exists vol, rest. simpl.
  split_and!; try done.
  - rewrite or_else_nil_r. destruct (vol_title vol); simpl; [|done].
    apply trim_idemp.
  - apply trim_idemp.
  - by intros ->.
  - by intros [-> | ->].
  - by intros ->.
  - intros address ->.
    exact (f_equal Some
             (replace_first_prefix (units "http:") (units "https:") address)).
  - intros url -> Hurl.
    exact (f_equal Some (replace_first_absent _ (units "https:") _ Hurl)).
Qed.

Lemma fetchBookInfo_answer_witness :
  fetchBookInfo false true (Some [Some moby_volume]) = Some moby_info ∧
  trim (info_title moby_info) = info_title moby_info.
Proof.
  split; [reflexivity|].
  by destruct (fetchBookInfo_answer false true (Some [Some moby_volume])
                 moby_info eq_refl)
    as (_ & _ & vol & rest & _ & Htitle & _).
Defined.



Lemma or_else_trimmed a b :
  trim a = a → trim b = b → trim (or_else a b) = or_else a b.
Proof. by destruct a. Qed.

Lemma or_else_null_truthy a : or_else_null a None ≠ Some [].
Proof. by destruct a as [[|]|]. Qed.


(** ** The library *)

Lemma or_else_trim_nonempty a b : b ≠ [] → trim b = b →
  or_else (trim a) b ≠ [] ∧ trim (or_else (trim a) b) = or_else (trim a) b.
Proof.
  intros Hb Hb'. split; [by apply or_else_nonempty|].
  apply or_else_trimmed; [apply trim_idemp|done].
Qed.

Lemma confirm_insert_clean title author filePath p :
  let request := confirm_insert title author filePath p in
  bins_title request ≠ [] ∧
  trim (bins_title request) = bins_title request ∧
  bins_author request ≠ [] ∧
  trim (bins_author request) = bins_author request ∧
  bins_cover_url request ≠ Some [] ∧
  bins_pdf_path request = filePath ∧
  bins_favorite request = false ∧
  is_Some (DefaultCover (bins_title request)).
Proof.
  cbn zeta. unfold confirm_insert. cbn.
  destruct (or_else_trim_nonempty title (units "Untitled Book"))
    as [Ht Ht']; [done|by vm_compute|].
  destruct (or_else_trim_nonempty author (units "Unknown Author"))
    as [Ha Ha']; [done|by vm_compute|].
  split_and!; try done.
  - apply or_else_null_truthy.
  - by apply DefaultCover_Some.
Qed.

(** X17: [handleBookConfirm] with a pending book always ends with no pending
    book and the busy flag down, and leaves the open book alone.  It first
    uploads the file under the user's folder; it asks for the insert only
    after a successful upload, with a title and an author that are never
    empty and have no white space at either end, and with [favorite] false;
    it makes no other call.  It alerts exactly when the upload or the insert
    failed, and then the books are unchanged; otherwise it puts the new book
    first, before the books there were, and when the row answered holds what
    was inserted that book is the one the loading effect makes of the row,
    and its card has a cover. *)
Theorem handleBookConfirm_outcomes (getPublicUrl : list N → list N)
    (title author userId now : list N) (uploadError : option (list N))
    (inserted : list N + book_row) (s : library) (p : pending) :
  pendingBook s = Some p →
  let filePath :=
    userId ++ units "/" ++ now ++ units "_" ++ file_name (pending_file p) in
  let request := confirm_insert title author filePath p in
  let result :=
    handleBookConfirm getPublicUrl title author userId now uploadError
      inserted s in
  let s' := result.1.1 in
  let calls := result.1.2 in
  let alert := result.2 in
  pendingBook s' = None ∧ isUploading s' = false ∧
  openBook s' = openBook s ∧ bookToDelete s' = bookToDelete s ∧
  calls = UploadPdf filePath (pending_file p)
          :: match uploadError with
             | Some _ => []
             | None => [InsertBook request]
             end ∧
  bins_title request ≠ [] ∧
  trim (bins_title request) = bins_title request ∧
  bins_author request ≠ [] ∧
  trim (bins_author request) = bins_author request ∧
  bins_favorite request = false ∧
  match alert with
  | Some text =>
      books s' = books s ∧
      ∃ message, text = units "Upload failed: " ++ message ∧
                 (uploadError = Some message ∨
                  uploadError = None ∧ inserted = inl message)
  | None =>
      uploadError = None ∧
      ∃ row b, inserted = inr row ∧
               books s' = b :: books s ∧
               book_id b = brow_id row ∧
               book_pdfUrl b = Some (getPublicUrl filePath) ∧
               (echoes_insert row request →
                b = book_of_row getPublicUrl row ∧
                book_favorite b = false ∧
                is_Some (card_cover b))
  end.
Proof.
  intros Hp. cbn zeta. unfold handleBookConfirm. rewrite Hp.
  destruct (confirm_insert_clean title author
              (userId ++ units "/" ++ now ++ units "_"
                      ++ file_name (pending_file p)) p)
    as (Ht & Ht' & Ha & Ha' & Hc & Hpath & Hf & Hcover).
  destruct uploadError as [message|]; [|destruct inserted as [message|row]];
    cbn [fst snd pendingBook isUploading openBook bookToDelete books
         setPendingBook setIsUploading setBooks].
  - split_and!; try done. exists message. auto.
  - split_and!; try done. exists message. auto.
  - split_and!; try done. eexists row, _.
    split_and!; try reflexivity.
    intros (Hrt & Hra & Hrc & Hrp & Hrf).
    assert (book_of_row getPublicUrl row =
            {| book_id := brow_id row; book_title := brow_title row;
               book_author := brow_author row;
               book_cover := brow_cover_url row;
               book_pdfUrl :=
                 Some (getPublicUrl
                         (userId ++ units "/" ++ now ++ units "_"
                                 ++ file_name (pending_file p)));
               book_favorite := brow_favorite row |}) as Hbook.
    { unfold book_of_row. rewrite Hrp, Hrc, Hpath. f_equal.
      - unfold confirm_insert. cbn [bins_cover_url].
        by destruct (pending_cover p) as [[|]|].
      - by destruct userId. }
    split_and!; [done|by rewrite Hrf|].
    unfold card_cover. cbn [book_cover book_title].
    destruct (brow_cover_url row) as [[|]|]; try done.
    all: rewrite Hrt; by apply fmap_is_Some.
Qed.

Lemma handleBookConfirm_outcomes_witness :
  pendingBook awaiting_confirm = Some moby_pending ∧
  pendingBook
    (handleBookConfirm publicUrl_of (units " Moby Dick ") []
       (units "u1") (units "1700000000000") None (inr moby_row)
       awaiting_confirm).1.1 = None.
Proof.
  split; [reflexivity|].
  by destruct (handleBookConfirm_outcomes publicUrl_of (units " Moby Dick ") []
                 (units "u1") (units "1700000000000") None (inr moby_row)
                 awaiting_confirm moby_pending eq_refl) as (Hpending & _).
Defined.

Lemma find_book (l : list book) id :
  match find (λ b, bool_decide (book_id b = id)) l with
  | Some b => b ∈ l ∧ book_id b = id
  | None => id ∉ (book_id <$> l)
  end.
Proof.
  induction l as [|c l IH]; cbn [find].
  - apply not_elem_of_nil.
  - case_bool_decide as Hc.
    + split; [by left|done].
    + destruct (find _ l) as [b|].
      * destruct IH. split; [by right|done].
      * rewrite fmap_cons, not_elem_of_cons. done.
Qed.

Lemma set_favorite_id id favorite b :
  book_id (set_favorite id favorite b) = book_id b.
Proof. unfold set_favorite. by case_bool_decide. Qed.

Lemma set_favorite_same favorite b :
  book_favorite (set_favorite (book_id b) favorite b) = favorite.
Proof. unfold set_favorite. by rewrite bool_decide_eq_true_2. Qed.

Lemma set_favorite_ids id favorite (l : list book) :
  book_id <$> (set_favorite id favorite <$> l) = book_id <$> l.
Proof.
  rewrite <- list_fmap_compose. apply list_fmap_ext.
  intros i b _. apply set_favorite_id.
Qed.

(** With ids that differ, setting the favourite flag of [b] to its own value
    changes nothing, whatever it was set to before. *)
Lemma set_favorite_restore (l : list book) b favorite :
  NoDup (book_id <$> l) → b ∈ l →
  set_favorite (book_id b) (book_favorite b)
    <$> (set_favorite (book_id b) favorite <$> l) = l.
Proof.
  intros Hnodup Hb. rewrite <- list_fmap_compose.
  rewrite <- (list_fmap_id l) at 2. apply list_fmap_ext.
  intros i c Hc. cbn. unfold set_favorite at 2.
  case_bool_decide as Hid.
  - unfold set_favorite. cbn. rewrite bool_decide_eq_true_2 by done.
    assert (c = b) as ->; [|by destruct b].
    apply list_elem_of_lookup in Hb as [j Hj].
    assert (i = j) as ->; [|congruence].
    eapply NoDup_lookup; [done| |].
    + rewrite list_lookup_fmap, Hc. done.
    + rewrite list_lookup_fmap, Hj. cbn. by rewrite Hid.
  - unfold set_favorite. by rewrite bool_decide_eq_false_2.
Qed.

Lemma library_eq s l : books s = l → setBooks (λ _, l) s = s.
Proof. intros <-. by destruct s. Qed.

Lemma setBooks_setBooks f g s :
  setBooks f (setBooks g s) = setBooks (f ∘ g) s.
Proof. done. Qed.

Lemma setBooks_const f s l : f (books s) = l → setBooks f s = setBooks (λ _, l) s.
Proof. intros <-. done. Qed.

(** X18: in a library whose books have ids that differ, [toggleFavorite]
    with a failing update leaves the state as it was (the optimistic change
    is reverted), and two successful toggles of the same book also give the
    state back.  One toggle keeps the books' ids and order, leaves every
    other book as it was, flips the flag of the book in question and asks
    the table for exactly that flag; for an id that no book has it does and
    asks nothing. *)
Theorem toggleFavorite_reverts (id : Z) (s : library) :
  NoDup (book_id <$> books s) →
  (toggleFavorite id true s).1 = s ∧
  (toggleFavorite id false (toggleFavorite id false s).1).1 = s ∧
  book_id <$> books (toggleFavorite id false s).1 = book_id <$> books s ∧
  openBook (toggleFavorite id false s).1 = openBook s ∧
  (∀ b, b ∈ books s → book_id b ≠ id →
        b ∈ books (toggleFavorite id false s).1) ∧
  (∀ b error, b ∈ books s → book_id b = id →
     (toggleFavorite id error s).2
     = [UpdateFavorite id (negb (book_favorite b))] ∧
     ∃ b', b' ∈ books (toggleFavorite id false s).1 ∧
           book_id b' = id ∧ book_favorite b' = negb (book_favorite b) ∧
           book_title b' = book_title b ∧ book_author b' = book_author b ∧
           book_cover b' = book_cover b ∧ book_pdfUrl b' = book_pdfUrl b) ∧
  (id ∉ (book_id <$> books s) → ∀ error, toggleFavorite id error s = (s, [])).
Proof.
  intros Hnodup. unfold toggleFavorite.
  pose proof (find_book (books s) id) as Hfind.
  destruct (find _ (books s)) as [b|] eqn:Hb.
  - destruct Hfind as [Hin <-].
    assert (∀ c, c ∈ books s → book_id c = book_id b → c = b) as Hunique.
    { intros c Hc Hid. apply list_elem_of_lookup in Hc as [i Hi].
      apply list_elem_of_lookup in Hin as [j Hj].
      assert (i = j) as ->; [|congruence].
      eapply NoDup_lookup; [done| |].
      - rewrite list_lookup_fmap, Hi. done.
      - rewrite list_lookup_fmap, Hj. cbn. by rewrite Hid. }
    split_and!.
    + cbn [fst]. rewrite setBooks_setBooks. rewrite negb_involutive.
      apply library_eq. symmetry. by apply set_favorite_restore.
    + cbn [fst books setBooks].
      pose proof (find_book (set_favorite (book_id b) (negb (book_favorite b))
                               <$> books s) (book_id b)) as Hfind'.
      destruct (find _ (_ <$> books s)) as [b'|] eqn:Hb'.
      * destruct Hfind' as [Hin' Hid'].
        apply list_elem_of_fmap in Hin' as (c & -> & Hc).
        rewrite set_favorite_id in Hid'. apply Hunique in Hid' as ->; [|done].
        cbn [fst]. rewrite setBooks_setBooks.
        rewrite set_favorite_same, negb_involutive.
        apply library_eq. symmetry. by apply set_favorite_restore.
      * exfalso. apply Hfind'. rewrite set_favorite_ids.
        by apply list_elem_of_fmap_2.
    + cbn [fst books setBooks]. apply set_favorite_ids.
    + done.
    + intros c Hc Hid. cbn [fst books setBooks].
      apply list_elem_of_fmap. exists c. split; [|done].
      unfold set_favorite. by rewrite bool_decide_eq_false_2.
    + intros c error Hc Hid. apply Hunique in Hid as ->; [|done].
      split; [done|].
      exists (set_favorite (book_id b) (negb (book_favorite b)) b).
      split; [by apply list_elem_of_fmap_2|].
      unfold set_favorite. by rewrite bool_decide_eq_true_2.
    + intros Hout. exfalso. apply Hout. by apply list_elem_of_fmap_2.
  - split_and!; try done.
    + cbn [fst]. by rewrite Hb.
    + intros b _ Hin Hid. exfalso. apply Hfind. rewrite <- Hid.
      by apply list_elem_of_fmap_2.
Qed.

Lemma toggleFavorite_reverts_witness :
  NoDup (book_id <$> books two_books) ∧
  (toggleFavorite 8 true two_books).1 = two_books.
Proof.
  assert (NoDup (book_id <$> books two_books)) as Hnodup.
  { apply (bool_decide_unpack _). by vm_compute. }
  split; [done|].
  by destruct (toggleFavorite_reverts 8 two_books Hnodup) as (Hrevert & _).
Defined.

(** X19: [handleDeleteConfirm] for a requested book.  When [new URL]
    throws on the address of its PDF the handler stops before doing
    anything: no call, the book stays and so does the request.  Otherwise
    the request is closed, exactly the books with the id of that book leave
    the list (the others keep their order), and the reader is closed if and
    only if it shows a book with that id.  The calls are then the deletion
    of the row, preceded by one removal from the storage when the address
    has a path after [/PDFs/]; the removal names that path as the parse of
    the address gives it, whatever the key the file was stored under.  A
    book with no address of a PDF sends the deletion of the row alone. *)
Theorem handleDeleteConfirm_removes
    (storagePath : list N → option (option (list N)))
    (s : library) (b : book) :
  bookToDelete s = Some b →
  let result := handleDeleteConfirm storagePath s in
  let parsed :=
    match book_pdfUrl b with
    | Some ((_ :: _) as pdfUrl) => storagePath pdfUrl
    | _ => Some None
    end in
  match parsed with
  | None => result = (s, [])
  | Some path =>
      bookToDelete result.1 = None ∧
      pendingBook result.1 = pendingBook s ∧
      (∀ c, c ∈ books result.1 ↔ c ∈ books s ∧ book_id c ≠ book_id b) ∧
      books result.1 `sublist_of` books s ∧
      (∀ c, openBook result.1 = Some c
            ↔ openBook s = Some c ∧ book_id c ≠ book_id b) ∧
      result.2 = match path with
                 | Some path => [RemovePdf path; DeleteBook (book_id b)]
                 | None => [DeleteBook (book_id b)]
                 end
  end.
Proof.
  intros Hb. cbn zeta. unfold handleDeleteConfirm. rewrite Hb.
  assert (∀ removal,
    let result :=
      (setBookToDelete None
         (setOpenBook
            (λ cur, match cur with
                    | Some c => if bool_decide (book_id c = book_id b)
                                then None else cur
                    | None => cur
                    end)
            (setBooks (filter (λ c, book_id c ≠ book_id b)) s)),
       removal ++ [DeleteBook (book_id b)]) in
    bookToDelete result.1 = None ∧
    pendingBook result.1 = pendingBook s ∧
    (∀ c, c ∈ books result.1 ↔ c ∈ books s ∧ book_id c ≠ book_id b) ∧
    books result.1 `sublist_of` books s ∧
    (∀ c, openBook result.1 = Some c
          ↔ openBook s = Some c ∧ book_id c ≠ book_id b) ∧
    result.2 = removal ++ [DeleteBook (book_id b)]) as Hdone.
  { intros removal. cbn. split_and!; try done.
    - intros c. rewrite list_elem_of_filter. tauto.
    - apply sublist_filter.
    - intros c. destruct (openBook s) as [o|]; [|by intuition].
      case_bool_decide as Ho.
      + split; [done|]. intros [[= ->] Hc]. done.
      + split; [intros [= ->]; done|]. by intros [? _]. }
  destruct (book_pdfUrl b) as [[|u url]|]; [apply (Hdone [])| |apply (Hdone [])].
  destruct (storagePath (u :: url)) as [[path|]|]; [| |done].
  - apply (Hdone [RemovePdf path]).
  - apply (Hdone []).
Qed.

(** The book deleted here has no address of a PDF: nothing is parsed. *)
Lemma handleDeleteConfirm_removes_witness :
  bookToDelete (handleDeleteRequest emma two_books) = Some emma ∧
  books (handleDeleteConfirm (λ _, None)
           (handleDeleteRequest emma two_books)).1 = [moby] ∧
  (handleDeleteConfirm (λ _, None) (handleDeleteRequest emma two_books)).2
  = [DeleteBook 8].
Proof.
  split; [reflexivity|].
  pose proof (handleDeleteConfirm_removes (λ _, None)
                (handleDeleteRequest emma two_books) emma eq_refl) as Hwit.
  split; [by vm_compute|]. by destruct Hwit as (_ & _ & _ & _ & _ & ->).
Defined.

(** X20: the grid shows books of the library in the library's order; on the
    favourites tab it shows favourites only; a search of white space only
    filters nothing; a book of the tab whose title or author is the text
    searched is shown.  A click on a shown book opens it when it has a PDF
    and does nothing when it has none. *)
Theorem displayedBooks_shows (toLowerCase : list N → list N) (s : library) :
  displayedBooks toLowerCase s `sublist_of` books s ∧
  (activeTab s = tab_favorites →
   ∀ b, b ∈ displayedBooks toLowerCase s → book_favorite b = true) ∧
  (activeTab s = tab_all → trim (searchQuery s) = [] →
   displayedBooks toLowerCase s = books s) ∧
  (∀ b, b ∈ tabFiltered s →
        book_title b = searchQuery s ∨ book_author b = searchQuery s →
        b ∈ displayedBooks toLowerCase s) ∧
  (∀ b, b ∈ displayedBooks toLowerCase s →
        openBook (clickBook b s)
        = match book_pdfUrl b with
          | Some [] | None => openBook s
          | Some _ => Some b
          end ∧
        books (clickBook b s) = books s).
Proof.
  assert (tabFiltered s `sublist_of` books s) as Htab.
  { unfold tabFiltered. destruct (activeTab s); [done|apply sublist_filter]. }
  assert (displayedBooks toLowerCase s `sublist_of` tabFiltered s) as Hshown.
  { unfold displayedBooks. destruct (trim (searchQuery s)); [done|].
    apply sublist_filter. }
  split_and!.
  - by etrans.
  - intros Hfav b Hb. eapply elem_of_sublist in Hb; [|done].
    unfold tabFiltered in Hb. rewrite Hfav in Hb.
    by apply list_elem_of_filter in Hb as [? _].
  - intros Hall Hblank. unfold displayedBooks, tabFiltered.
    by rewrite Hblank, Hall.
  - intros b Hb Hquery. unfold displayedBooks.
    destruct (trim (searchQuery s)); [done|].
    apply list_elem_of_filter. split; [|done]. unfold matches.
    destruct Hquery as [-> | ->]; rewrite includes_refl; [done|].
    apply orb_true_r.
  - intros b _. unfold clickBook. by destruct (book_pdfUrl b) as [[|]|].
Qed.

Lemma open_in_library_books s s' :
  openBook s' = openBook s →
  (∀ id, id ∈ (book_id <$> books s) → id ∈ (book_id <$> books s')) →
  open_in_library s → open_in_library s'.
Proof.
  intros Hopen Hbooks Hs b Hb. rewrite Hopen in Hb.
  destruct (Hs b Hb) as [Hin Hurl]. split; [by apply Hbooks|done].
Qed.

(** X21: the reader only ever shows a book of the library that has a PDF.
    This holds when the library mounts, and every handler keeps it: picking
    a file, confirming or cancelling the pending book, toggling a
    favourite, requesting, cancelling or confirming a deletion, clicking a
    book the grid shows, and closing the reader. *)
Theorem open_book_stays_in_library
    (getPublicUrl toLowerCase : list N → list N)
    (storagePath : list N → option (option (list N))) (s : library) :
  open_in_library s →
  open_in_library library_mount ∧
  (∀ files meta info, open_in_library (handleFileChange files meta info s)) ∧
  (∀ title author userId now uploadError inserted,
     open_in_library
       (handleBookConfirm getPublicUrl title author userId now uploadError
          inserted s).1.1) ∧
  open_in_library (handleBookCancel s) ∧
  (∀ id error, open_in_library (toggleFavorite id error s).1) ∧
  (∀ b, open_in_library (handleDeleteRequest b s)) ∧
  open_in_library (handleDeleteCancel s) ∧
  open_in_library (handleDeleteConfirm storagePath s).1 ∧
  (∀ b, b ∈ displayedBooks toLowerCase s → open_in_library (clickBook b s)) ∧
  open_in_library (setOpenBook (λ _, None) s).
Proof.
  intros Hs. split_and!; try done.
  - intros files meta info. unfold handleFileChange.
    destruct (files ≫= head) as [f|]; [|done]. by case_bool_decide.
  - intros title author userId now uploadError inserted.
    unfold handleBookConfirm. destruct (pendingBook s) as [p|]; [|done].
    destruct uploadError as [message|]; [done|].
    destruct inserted as [message|row]; [done|].
    eapply open_in_library_books; [| |exact Hs]; [done|].
    intros id Hid. cbn. by right.
  - intros id error.
    eapply open_in_library_books; [| |exact Hs].
    + unfold toggleFavorite. destruct (find _ _); [|done]. by destruct error.
    + intros id'. unfold toggleFavorite. destruct (find _ _); [|done].
      destruct error; cbn [fst books setBooks];
        by rewrite !set_favorite_ids.
  - unfold handleDeleteConfirm.
    destruct (bookToDelete s) as [b|]; [|done].
    destruct (match book_pdfUrl b with
              | Some [] | None => Some []
              | Some (_ :: _ as pdfUrl) => _
              end) as [removal|]; [|done].
    intros c. cbn. destruct (openBook s) as [o|] eqn:Ho; [|done].
    case_bool_decide as Hid; [done|]. intros [= <-].
    destruct (Hs o) as [Hin Hurl]; [done|]. split; [|done].
    apply list_elem_of_fmap in Hin as (c & Hc & Hin).
    apply list_elem_of_fmap. exists c. split; [done|].
    apply list_elem_of_filter. split; [congruence|done].
  - intros b Hb. unfold clickBook.
    destruct (book_pdfUrl b) as [[|u url]|] eqn:Hurl; try done.
    intros c [= <-]. split; [|by exists (u :: url)].
    apply list_elem_of_fmap_2. unfold displayedBooks in Hb.
    assert (b ∈ tabFiltered s) as Htab.
    { destruct (trim (searchQuery s)); [done|].
      by apply list_elem_of_filter in Hb as [_ ?]. }
    unfold tabFiltered in Htab. destruct (activeTab s); [done|].
    by apply list_elem_of_filter in Htab as [_ ?].
Qed.

(** The book deleted here has no address of a PDF: nothing is parsed. *)
Lemma open_book_stays_in_library_witness :
  open_in_library (clickBook moby two_books) ∧
  openBook (clickBook moby two_books) = Some moby ∧
  open_in_library
    (handleDeleteConfirm (λ _, None)
       (handleDeleteRequest emma (clickBook moby two_books))).1.
Proof.
  assert (open_in_library (clickBook moby two_books)) as Hopen.
  { intros b [= <-]. split; [|by eexists].
    apply (bool_decide_unpack _). by vm_compute. }
  split; [done|]. split; [reflexivity|].
  destruct (open_book_stays_in_library publicUrl_of (λ t, t) (λ _, None)
              (clickBook moby two_books) Hopen)
    as (_ & _ & _ & _ & _ & Hrequest & _).
  by destruct (open_book_stays_in_library publicUrl_of (λ t, t) (λ _, None)
                 (handleDeleteRequest emma (clickBook moby two_books))
                 (Hrequest emma))
    as (_ & _ & _ & _ & _ & _ & _ & Hconfirm & _).
Defined.

(** X22: the preview of a collapsed note.  There is none exactly when the
    content is white space only.  Otherwise it is not empty, does not start
    with white space and has at most 131 code units: the trimmed content
    as it is when that has at most 130, else its first 130 followed by an
    ellipsis. *)
Theorem displayText_preview (content : list N) :
  (displayText content = None ↔ Forall (λ c, is_white c = true) content) ∧
  ∀ text, displayText content = Some text →
    text ≠ [] ∧ (length text ≤ 131)%nat ∧
    (∀ c, head text = Some c → is_white c = false) ∧
    ((length (trim content) ≤ 130)%nat →
     text = trim content ∧ displayText text = Some text) ∧
    ((130 < length (trim content))%nat →
     length text = 131%nat ∧ last text = Some 8230%N ∧
     take 130 text = take 130 (trim content)).
Proof.
  unfold displayText. split.
  - rewrite <- trim_nil. by destruct (trim content).
  - intros text. destruct (trim content) as [|c t] eqn:Ht; [done|].
    rewrite <- Ht. intros [= <-].
    assert (∀ d, head (trim content) = Some d → is_white d = false) as Hhead
      by apply trim_head.
    case_bool_decide as Hlong.
    + split_and!.
      * rewrite Ht. done.
      * rewrite length_app, length_take. cbn [length]. lia.
      * intros d Hd. apply Hhead. rewrite Ht in *. done.
      * lia.
      * intros _. split_and!.
        -- rewrite length_app, length_take. cbn [length]. lia.
        -- by rewrite last_snoc.
        -- rewrite take_app_le by (rewrite length_take; lia).
           rewrite take_take. by rewrite Nat.min_id.
    + split_and!.
      * by rewrite Ht.
      * lia.
      * done.
      * intros _. split; [done|]. rewrite trim_idemp, Ht. cbn zeta.
        rewrite <- Ht. by rewrite bool_decide_eq_false_2.
      * lia.
Qed.

Lemma filter_fmap_note_of_row id0 (table : list note_row) :
  filter (λ n, id n ≠ id0) (note_of_row <$> table)
  = note_of_row <$> filter (λ r, row_id r ≠ id0) table.
Proof.
  induction table as [|r table IH]; [done|].
  rewrite fmap_cons, !filter_cons. cbn [note_of_row id].
  destruct (decide (row_id r ≠ id0)); by rewrite IH.
Qed.

Lemma fmap_unchanged {A} (f : A → A) (l : list A) :
  (∀ x, f x = x) → f <$> l = l.
Proof.
  intros Hf. induction l as [|x l IH]; [done|].
  by rewrite fmap_cons, Hf, IH.
Qed.

(** X23: the notes on screen stay those of the table.  When the notes shown
    are the rows of the [notes] table as the load effect reads them, then
    after [addNote], [updateNote] or [deleteNote], with the table changed
    by the call the handler sends, loading again changes nothing; and a
    load that fails never changes the notes. *)
Theorem notes_in_sync (table : list note_row) (s : reader) :
  notes s = note_of_row <$> table →
  (∀ row, loadNotes false (Some (table ++ [row])) (addNote (Some row) s)
          = addNote (Some row) s) ∧
  (∀ id0 c,
     loadNotes false (Some (table_update id0 (updateNote_payload c) table))
       (setNotes (updateNote id0 c) s)
     = setNotes (updateNote id0 c) s) ∧
  (∀ id0,
     loadNotes false (Some (table_delete id0 table))
       (setNotes (deleteNote id0) s)
     = setNotes (deleteNote id0) s) ∧
  (∀ data s', loadNotes true data s' = s').
Proof.
  intros Hs. unfold loadNotes, addNote, setNotes. cbn. split_and!.
  - intros row. f_equal. by rewrite Hs, fmap_app.
  - intros id0 c. f_equal. rewrite Hs. unfold updateNote, table_update.
    destruct (updateNote_payload c) as [p|] eqn:Hp.
    + rewrite <- !list_fmap_compose. apply list_fmap_ext.
      intros i r _. cbn. destruct (decide (row_id r = id0)); [|done].
      unfold updateNote_payload in Hp. unfold spread, update_row, note_of_row.
      destruct c as [[x|] [y|] [t|]]; cbn in *;
        first [done | by injection Hp as <-].
    + symmetry. apply fmap_unchanged. intros n.
      destruct (decide (id n = id0)); [|done].
      unfold updateNote_payload in Hp.
      destruct c as [[x|] [y|] [t|]]; cbn in *; try done. by destruct n.
  - intros id0. f_equal. rewrite Hs. symmetry. apply filter_fmap_note_of_row.
  - done.
Qed.

Lemma notes_in_sync_witness :
  notes (mount 1) = note_of_row <$> [] ∧
  loadNotes false
    (Some [{| row_id := 1; row_page := 1; row_x_pct := 5; row_y_pct := 5;
              row_content := "" |}])
    (addNote (Some {| row_id := 1; row_page := 1; row_x_pct := 5;
                      row_y_pct := 5; row_content := "" |}) (mount 1))
  = addNote (Some {| row_id := 1; row_page := 1; row_x_pct := 5;
                     row_y_pct := 5; row_content := "" |}) (mount 1).
Proof.
  split; [reflexivity|].
  destruct (notes_in_sync [] (mount 1) eq_refl) as (Hadd & _).
  apply (Hadd {| row_id := 1; row_page := 1; row_x_pct := 5; row_y_pct := 5;
                 row_content := "" |}).
Defined.
